(** * Shallow Blue: the search core (src/search.cc)

    A shallow embedding of [Search]: the constructor's limit policy, the
    throttled limit poll, iterative deepening, the root search, the fail-hard
    alpha-beta negamax with its transposition-table probe, and the
    quiescence search.

    C++ [int] values are modelled on [Z], and [/] on [int] is truncating
    division, [Z.quot].  Where search.cc computes on values that come from
    outside and can leave the range of a 32-bit [int] in ordinary use (the
    sum of remaining time and increment, the node count times 1000), the
    result is the [int] the machine holds, [toInt].  The collaborators whose
    sources are not part of search.cc (board, move generator, evaluator,
    move pickers, the replacement policy of the cache, the constants of
    defs.h) are the fields of the class [Engine]. *)

From stdpp Require Import gmap list.
From Stdlib Require Import ZArith Lia.

Local Open Scope Z_scope.

(** ** Data model *)

(** A 32-bit [int]: its range, and the value it holds for a result [z] of
    [+] or [*] (two's complement wrap-around). *)
Definition INT_MAX : Z := 2147483647.
Definition INT_MIN : Z := -2147483648.

Definition toInt (z : Z) : Z := (z + 2147483648) mod 4294967296 - 2147483648.

Inductive Color := WHITE | BLACK.

Definition getOppositeColor (c : Color) : Color :=
  match c with WHITE => BLACK | BLACK => WHITE end.

#[global] Instance Color_eq_dec : EqDecision Color.
Proof. solve_decision. Defined.

#[global] Instance Color_countable : Countable Color.
Proof.
  refine (inj_countable' (λ c, match c with WHITE => false | BLACK => true end)
                         (λ b : bool, if b then BLACK else WHITE) _).
  by intros [].
Defined.

(** Modelled from the spec: move.h is not part of search.cc.  A move is its
    from and to squares plus a flag word; the flag bits are tested with [&]. *)
Record Move := mkMove { getFrom : Z; getTo : Z; getFlags : Z }.

(** The bound kind of a cache entry. *)
Inductive Flag := EXACT | LOWER_BOUND | UPPER_BOUND.

(** [TranspTableEntry(score, depth, flag, bestMove)]. *)
Record TranspTableEntry := mkEntry {
  getScore : Z;
  getDepth : Z;
  getFlag : Flag;
  ttBestMove : Move
}.

(** Modelled from the spec: transptable.h is not part of search.cc.  The
    cache is a keyed store: [getEntry] returns the most recent entry of a
    key or nothing; [set] ([ttSet], below) inserts or replaces. *)
Abbreviation TranspTable := (gmap Z TranspTableEntry).

Definition getEntry (tt : TranspTable) (key : Z) : option TranspTableEntry :=
  tt !! key.

(** Modelled from the spec: orderinginfo.h is not part of search.cc.  The
    move-ordering state is a ply counter, a ply-indexed killer slot and a
    (side, from, to) table of history weights. *)
Record OrderingInfo := mkOrdering {
  _ply : Z;
  _killers : gmap Z Move;
  _history : gmap (Color * Z * Z) Z
}.

Definition getPly (o : OrderingInfo) : Z := _ply o.

Definition incrementPly (o : OrderingInfo) : OrderingInfo :=
  mkOrdering (_ply o + 1) (_killers o) (_history o).

Definition deincrementPly (o : OrderingInfo) : OrderingInfo :=
  mkOrdering (_ply o - 1) (_killers o) (_history o).

Definition updateKillers (ply : Z) (m : Move) (o : OrderingInfo) : OrderingInfo :=
  mkOrdering (_ply o) (<[ply := m]> (_killers o)) (_history o).

Definition getHistory (o : OrderingInfo) (c : Color) (from to : Z) : Z :=
  default 0 (_history o !! (c, from, to)).

Definition incrementHistoryBy (bonus : Z) (c : Color) (from to : Z)
    (o : OrderingInfo) : OrderingInfo :=
  mkOrdering (_ply o) (_killers o)
             (<[(c, from, to) := getHistory o c from to + bonus]> (_history o)).

(** [Limits] of the UCI [go] command; [time] and [increment] are arrays
    indexed by colour. *)
Record Limits := mkLimits {
  l_depth : Z;
  l_time : Color → Z;
  l_increment : Color → Z;
  l_movesToGo : Z;
  l_nodes : Z;
  l_infinite : bool
}.

(** ** The collaborators *)

Class Engine := {
  (* defs.h *)
  INF : Z;
  MAX_SEARCH_DEPTH : Z;
  DEFAULT_SEARCH_DEPTH : Z;
  SUDDEN_DEATH_MOVESTOGO : Z;
  (* move.h: flag bits *)
  NULL_MOVE : Z;
  CAPTURE : Z;
  (* board.h *)
  Board : Type;
  getActivePlayer : Board → Color;
  colorIsInCheck : Board → Color → bool;
  getZKey : Board → Z;
  doMove : Board → Move → Board;
  (* movegen.h: MoveGen(board).getLegalMoves() *)
  getLegalMoves : Board → list Move;
  (* eval.h: Eval(board, color).getScore() *)
  evalScore : Board → Color → Z;
  (* generalmovepicker.h, capturemovepicker.h: the moves in the order in
     which hasNext/getNext hand them out *)
  generalOrder : OrderingInfo → TranspTable → Board → list Move → list Move;
  captureOrder : list Move → list Move;
  (* transptable.h: the replacement policy of the cache, that is whether
     set(key, entry) on a table keeps the entry stored under another key *)
  ttKeeps : Z → TranspTableEntry → TranspTable → Z → bool;
  (* orderinginfo.h: the weight added to a history slot at a given depth *)
  historyBonus : Z → Z;
  (* steady_clock: the i-th reading of now() - _start, in milliseconds *)
  elapsedMs : nat → Z
}.

(** One line written to standard output. *)
Inductive ScoreString := Mate (n : Z) | MateNeg (n : Z) | Cp (score : Z).

Inductive UciLine :=
| InfoLine (depth nodes : Z) (score : ScoreString) (nps time : Z) (pv : list Move)
| BestMoveLine (m : Move).

Section SearchModel.
Context `{E : Engine}.

(** Modelled from the spec: move.h is not part of search.cc.  [Move()], the
    default-constructed move, is the null move: it carries the null-move
    flag. *)
Definition nullMove : Move := mkMove 0 0 NULL_MOVE.

Definition hasFlag (m : Move) (bit : Z) : bool :=
  negb (Z.land (getFlags m) bit =? 0).

Definition incrementHistory (c : Color) (from to depth : Z)
    (o : OrderingInfo) : OrderingInfo :=
  incrementHistoryBy (historyBonus depth) c from to o.

(** Modelled from the spec: transptable.h is not part of search.cc.  [set]
    inserts the entry or replaces the one of its key, with the fields as
    written; which entries of other keys the table keeps at that moment is
    its replacement policy, [ttKeeps]. *)
Definition ttSet (key : Z) (e : TranspTableEntry) (tt : TranspTable)
    : TranspTable :=
  <[key := e]> (filter (λ p, ttKeeps key e tt p.1 = true) tt).

(** The members of [Search], with the number of clock readings taken so
    far, the number of static evaluations ([Eval(...).getScore()]) made so
    far and the lines printed so far. *)
Record Search := mkSearchState {
  _limits : Limits;
  _board : Board;
  _logUci : bool;
  _stop : bool;
  _limitCheckCount : Z;
  _bestScore : Z;
  _bestMove : Move;
  _nodes : Z;
  _searchDepth : Z;
  _timeAllocated : Z;
  _tt : TranspTable;
  _orderingInfo : OrderingInfo;
  clockReads : nat;
  evals : nat;
  stdout : list UciLine
}.

Definition set_stop (b : bool) (s : Search) : Search :=
  mkSearchState (_limits s) (_board s) (_logUci s) b (_limitCheckCount s)
    (_bestScore s) (_bestMove s) (_nodes s) (_searchDepth s) (_timeAllocated s)
    (_tt s) (_orderingInfo s) (clockReads s) (evals s) (stdout s).

Definition set_limitCheckCount (c : Z) (s : Search) : Search :=
  mkSearchState (_limits s) (_board s) (_logUci s) (_stop s) c
    (_bestScore s) (_bestMove s) (_nodes s) (_searchDepth s) (_timeAllocated s)
    (_tt s) (_orderingInfo s) (clockReads s) (evals s) (stdout s).

Definition set_best (m : Move) (score : Z) (s : Search) : Search :=
  mkSearchState (_limits s) (_board s) (_logUci s) (_stop s) (_limitCheckCount s)
    score m (_nodes s) (_searchDepth s) (_timeAllocated s)
    (_tt s) (_orderingInfo s) (clockReads s) (evals s) (stdout s).

Definition set_nodes (n : Z) (s : Search) : Search :=
  mkSearchState (_limits s) (_board s) (_logUci s) (_stop s) (_limitCheckCount s)
    (_bestScore s) (_bestMove s) n (_searchDepth s) (_timeAllocated s)
    (_tt s) (_orderingInfo s) (clockReads s) (evals s) (stdout s).

Definition set_tt (tt : TranspTable) (s : Search) : Search :=
  mkSearchState (_limits s) (_board s) (_logUci s) (_stop s) (_limitCheckCount s)
    (_bestScore s) (_bestMove s) (_nodes s) (_searchDepth s) (_timeAllocated s)
    tt (_orderingInfo s) (clockReads s) (evals s) (stdout s).

Definition set_orderingInfo (o : OrderingInfo) (s : Search) : Search :=
  mkSearchState (_limits s) (_board s) (_logUci s) (_stop s) (_limitCheckCount s)
    (_bestScore s) (_bestMove s) (_nodes s) (_searchDepth s) (_timeAllocated s)
    (_tt s) o (clockReads s) (evals s) (stdout s).

Definition set_clockReads (n : nat) (s : Search) : Search :=
  mkSearchState (_limits s) (_board s) (_logUci s) (_stop s) (_limitCheckCount s)
    (_bestScore s) (_bestMove s) (_nodes s) (_searchDepth s) (_timeAllocated s)
    (_tt s) (_orderingInfo s) n (evals s) (stdout s).

Definition set_stdout (l : list UciLine) (s : Search) : Search :=
  mkSearchState (_limits s) (_board s) (_logUci s) (_stop s) (_limitCheckCount s)
    (_bestScore s) (_bestMove s) (_nodes s) (_searchDepth s) (_timeAllocated s)
    (_tt s) (_orderingInfo s) (clockReads s) (evals s) l.

Definition set_evals (n : nat) (s : Search) : Search :=
  mkSearchState (_limits s) (_board s) (_logUci s) (_stop s) (_limitCheckCount s)
    (_bestScore s) (_bestMove s) (_nodes s) (_searchDepth s) (_timeAllocated s)
    (_tt s) (_orderingInfo s) (clockReads s) n (stdout s).

(** ** Search::Search *)

(** The pair (_searchDepth, _timeAllocated) the constructor derives. *)
Definition resolveLimits (board : Board) (limits : Limits) : Z * Z :=
  if l_infinite limits then (INF, INF)
  else if negb (l_depth limits =? 0) then (l_depth limits, INF)
  else if negb (l_time limits (getActivePlayer board) =? 0) then
    let timeRemaining :=
      toInt (l_time limits (getActivePlayer board)
             + l_increment limits (getActivePlayer board)) in
    let timeAllocated :=
      if l_movesToGo limits =? 0
      then timeRemaining ÷ SUDDEN_DEATH_MOVESTOGO
      else timeRemaining ÷ l_movesToGo limits in
    (MAX_SEARCH_DEPTH, timeAllocated)
  else (DEFAULT_SEARCH_DEPTH, INF).

(** The constructor.  [_bestMove] is default-constructed; [_nodes] is left
    unset by the constructor and is written by [_rootMax] before it is
    read, so it is given the value 0 here; the cache and the ordering tables
    start empty. *)
Definition newSearch (board : Board) (limits : Limits) (logUci : bool) : Search :=
  let dt := resolveLimits board limits in
  mkSearchState limits board logUci false 0 0 nullMove 0 (fst dt) (snd dt)
    ∅ (mkOrdering 0 ∅ ∅) 0 0 [].

Definition getBestMove (s : Search) : Move := _bestMove s.
Definition getBestScore (s : Search) : Z := _bestScore s.
Definition stop (s : Search) : Search := set_stop true s.

(** ** Search::_checkLimits *)

Definition checkLimits (s : Search) : bool * Search :=
  let s := set_limitCheckCount (_limitCheckCount s - 1) s in
  if 0 <? _limitCheckCount s then (false, s)
  else
    let s := set_limitCheckCount 4096 s in
    let elapsed := elapsedMs (clockReads s) in
    let s := set_clockReads (S (clockReads s)) s in
    if negb (l_nodes (_limits s) =? 0) && (l_nodes (_limits s) <=? _nodes s)
    then (true, s)
    else if _timeAllocated s <=? elapsed then (true, s)
    else (false, s).

(** The guard [_stop || _checkLimits()]: the poll is skipped once the flag
    is set. *)
Definition stopOrCheckLimits (s : Search) : bool * Search :=
  if _stop s then (true, s) else checkLimits s.

(** ** Search::_qSearch *)

Definition SearchFn : Type :=
  Board → Z → Z → Search → option (Z * Search).

(** The loop over the capture picker; [rec] is the recursive call. *)
Fixpoint qSearchLoop (rec : SearchFn) (board : Board) (beta : Z)
    (picks : list Move) (alpha : Z) (s : Search) : option (Z * Search) :=
  match picks with
  | [] => Some (alpha, s)
  | move :: rest =>
    let movedBoard := doMove board move in
    '(r, s) ← rec movedBoard (- beta) (- alpha) s;
    let score := - r in
    if beta <=? score then Some (beta, s)
    else qSearchLoop rec board beta rest
           (if alpha <? score then score else alpha) s
  end.

(** The body of [_qSearch]; [rec] is the recursive call. *)
Definition qSearchBody (rec : SearchFn) (board : Board) (alpha beta : Z)
    (s : Search) : option (Z * Search) :=
  let '(limit, s) := stopOrCheckLimits s in
  if limit then Some (0, set_stop true s)
  else
    let legalMoves := getLegalMoves board in
    match legalMoves with
    | [] =>
      if colorIsInCheck board (getActivePlayer board)
      then Some (- INF, s) else Some (0, s)
    | _ :: _ =>
      let standPat := evalScore board (getActivePlayer board) in
      let s := set_evals (S (evals s)) s in
      let s := set_nodes (_nodes s + 1) s in
      let picks := captureOrder legalMoves in
      match picks with
      | [] => Some (standPat, s)
      | _ :: _ =>
        if beta <=? standPat then Some (beta, s)
        else
          let alpha := if alpha <? standPat then standPat else alpha in
          qSearchLoop rec board beta picks alpha s
      end
    end.

(** [fuel] bounds the depth of the recursion. *)
Fixpoint qSearch (fuel : nat) : SearchFn :=
  match fuel with
  | O => λ _ _ _ _, None
  | S fuel => qSearchBody (qSearch fuel)
  end.

(** ** Search::_negaMax *)

(** What the cache probe decides: return a score at once, or go on with a
    window. *)
Inductive Probe := ProbeReturn (score : Z) | ProbeWindow (alpha beta : Z).

Definition ttProbe (ttEntry : option TranspTableEntry) (depth alpha beta : Z)
    : Probe :=
  match ttEntry with
  | Some e =>
    if depth <=? getDepth e then
      let tightened :=
        match getFlag e with
        | EXACT => ProbeReturn (getScore e)
        | UPPER_BOUND => ProbeWindow alpha (Z.min beta (getScore e))
        | LOWER_BOUND => ProbeWindow (Z.max alpha (getScore e)) beta
        end in
      match tightened with
      | ProbeReturn r => ProbeReturn r
      | ProbeWindow alpha beta =>
        if beta <=? alpha then ProbeReturn (getScore e)
        else ProbeWindow alpha beta
      end
    else ProbeWindow alpha beta
  | None => ProbeWindow alpha beta
  end.

(** How a move loop ends: by a [return] inside the loop, or by running out
    of moves (or a [break]) with the current alpha and best move. *)
Inductive LoopExit :=
| LoopReturn (score : Z) (s : Search)
| LoopDone (alpha : Z) (bestMove : Move) (s : Search).

Definition DepthSearchFn : Type :=
  Board → Z → Z → Z → Search → option (Z * Search).

(** What a beta cutoff by [move] records: the killer, the history weight of
    a quiet move, and a LOWER_BOUND cache entry. *)
Definition recordCutoff (board : Board) (depth score : Z) (move : Move)
    (s : Search) : Search :=
  let s := set_orderingInfo
             (updateKillers (getPly (_orderingInfo s)) move (_orderingInfo s)) s in
  let s := if negb (hasFlag move CAPTURE)
           then set_orderingInfo
                  (incrementHistory (getActivePlayer (_board s))
                     (getFrom move) (getTo move) depth (_orderingInfo s)) s
           else s in
  set_tt (ttSet (getZKey board) (mkEntry score depth LOWER_BOUND move) (_tt s)) s.

Fixpoint negaMaxLoop (rec : DepthSearchFn) (board : Board) (depth beta : Z)
    (picks : list Move) (alpha : Z) (bestMove : Move) (s : Search)
    : option LoopExit :=
  match picks with
  | [] => Some (LoopDone alpha bestMove s)
  | move :: rest =>
    let movedBoard := doMove board move in
    let s := set_orderingInfo (incrementPly (_orderingInfo s)) s in
    '(r, s) ← rec movedBoard (depth - 1) (- beta) (- alpha) s;
    let score := - r in
    let s := set_orderingInfo (deincrementPly (_orderingInfo s)) s in
    if beta <=? score then
      Some (LoopReturn beta (recordCutoff board depth score move s))
    else if alpha <? score then
      negaMaxLoop rec board depth beta rest score move s
    else
      negaMaxLoop rec board depth beta rest alpha bestMove s
  end.

(** The part of [_negaMax] after the cache probe: move generation, the
    terminal test, the hand-over to quiescence at depth 0, the move loop and
    the final cache store. *)
Definition negaMaxSearch (rec : DepthSearchFn) (qrec : SearchFn)
    (board : Board) (depth alphaOrig alpha beta : Z) (s : Search)
    : option (Z * Search) :=
  let legalMoves := getLegalMoves board in
  match legalMoves with
  | [] =>
    let score := if colorIsInCheck board (getActivePlayer board)
                 then - INF else 0 in
    Some (score, s)
  | first :: _ =>
    if depth =? 0 then qrec board alpha beta s
    else
      let picks := generalOrder (_orderingInfo s) (_tt s) board legalMoves in
      ex ← negaMaxLoop rec board depth beta picks alpha nullMove s;
      match ex with
      | LoopReturn r s => Some (r, s)
      | LoopDone alpha bestMove s =>
        let bestMove := if hasFlag bestMove NULL_MOVE then first else bestMove in
        let flag := if alpha <=? alphaOrig then UPPER_BOUND else EXACT in
        let s := set_tt (ttSet (getZKey board)
                           (mkEntry alpha depth flag bestMove) (_tt s)) s in
        Some (alpha, s)
      end
  end.

(** The body of [_negaMax]; [rec] is the recursive call and [qrec] the
    call of [_qSearch]. *)
Definition negaMaxBody (rec : DepthSearchFn) (qrec : SearchFn)
    (board : Board) (depth alpha beta : Z) (s : Search) : option (Z * Search) :=
  let '(limit, s) := stopOrCheckLimits s in
  if limit then Some (0, set_stop true s)
  else
    let alphaOrig := alpha in
    let ttEntry := getEntry (_tt s) (getZKey board) in
    match ttProbe ttEntry depth alpha beta with
    | ProbeReturn r => Some (r, s)
    | ProbeWindow alpha beta =>
      negaMaxSearch rec qrec board depth alphaOrig alpha beta s
    end.

Fixpoint negaMax (fuel : nat) : DepthSearchFn :=
  match fuel with
  | O => λ _ _ _ _ _, None
  | S fuel => negaMaxBody (negaMax fuel) (qSearch fuel)
  end.

(** ** Search::_rootMax *)

Fixpoint rootMaxLoop (rec : DepthSearchFn) (board : Board) (depth beta : Z)
    (picks : list Move) (alpha : Z) (bestMove : Move) (s : Search)
    : option (Z * Move * Search) :=
  match picks with
  | [] => Some (alpha, bestMove, s)
  | move :: rest =>
    let movedBoard := doMove board move in
    let s := set_orderingInfo (incrementPly (_orderingInfo s)) s in
    '(r, s) ← rec movedBoard (depth - 1) (- beta) (- alpha) s;
    let currScore := - r in
    let s := set_orderingInfo (deincrementPly (_orderingInfo s)) s in
    let '(limit, s) := stopOrCheckLimits s in
    if limit then Some (alpha, bestMove, set_stop true s)
    else if alpha <? currScore then
      if currScore =? INF then Some (currScore, move, s)
      else rootMaxLoop rec board depth beta rest currScore move s
    else rootMaxLoop rec board depth beta rest alpha bestMove s
  end.

(** The body of [_rootMax]; [rec] is the call of [_negaMax]. *)
Definition rootMaxBody (rec : DepthSearchFn) (board : Board) (depth : Z)
    (s : Search) : option Search :=
  let legalMoves := getLegalMoves board in
  let s := set_nodes 0 s in
  match legalMoves with
  | [] => Some (set_best nullMove (- INF) s)
  | first :: _ =>
    let picks := generalOrder (_orderingInfo s) (_tt s) board legalMoves in
    '(alpha, bestMove, s) ←
      rootMaxLoop rec board depth INF picks (- INF) nullMove s;
    let bestMove := if hasFlag bestMove NULL_MOVE then first else bestMove in
    if negb (_stop s) then
      let s := set_tt (ttSet (getZKey board)
                         (mkEntry alpha depth EXACT bestMove) (_tt s)) s in
      Some (set_best bestMove alpha s)
    else Some s
  end.

Definition rootMax (fuel : nat) (board : Board) (depth : Z) (s : Search)
    : option Search :=
  rootMaxBody (negaMax fuel) board depth s.

(** ** Search::_getPv and Search::_logUciInfo *)

Fixpoint getPvFrom (n : nat) (tt : TranspTable) (currBoard : Board) : list Move :=
  match n with
  | O => []
  | S n =>
    match getEntry tt (getZKey currBoard) with
    | None => []
    | Some currEntry =>
      ttBestMove currEntry
        :: getPvFrom n tt (doMove currBoard (ttBestMove currEntry))
    end
  end.

Definition getPv (length : Z) (s : Search) : list Move :=
  getPvFrom (Z.to_nat length) (_tt s) (_board s).

Definition logUciInfo (pv : list Move) (depth : Z) (bestMove : Move)
    (bestScore nodes elapsed : Z) (s : Search) : Search :=
  let scoreString :=
    if bestScore =? INF then Mate (Z.of_nat (length pv))
    else if _bestScore s =? - INF then MateNeg (Z.of_nat (length pv))
    else Cp bestScore in
  let elapsed := elapsed + 1 in
  set_stdout
    (stdout s
     ++ [InfoLine depth nodes scoreString (toInt (nodes * 1000) ÷ elapsed)
           elapsed pv])
    s.

(** ** Search::iterDeep *)

(** One pass through the body of the loop of [iterDeep]; the flag tells
    whether the loop goes on ([false] stands for [break]). *)
Definition iterBody (fuel : nat) (currDepth : Z) (s : Search)
    : option (bool * Search) :=
  s ← rootMax fuel (_board s) currDepth s;
  let elapsed := elapsedMs (clockReads s) in
  let s := set_clockReads (S (clockReads s)) s in
  if _stop s then Some (false, s)
  else
    let s := if _logUci s
             then logUciInfo (getPv currDepth s) currDepth (_bestMove s)
                    (_bestScore s) (_nodes s) elapsed s
             else s in
    if _timeAllocated s ÷ 2 <=? elapsed then Some (false, s)
    else Some (true, s).

(** The loop [for (currDepth = 1; currDepth <= _searchDepth; currDepth++)];
    [iters] bounds the number of iterations run, [fuel] the recursion below
    one root search. *)
Fixpoint iterLoop (iters fuel : nat) (currDepth : Z) (s : Search)
    : option Search :=
  if currDepth <=? _searchDepth s then
    match iters with
    | O => None
    | S iters =>
      match iterBody fuel currDepth s with
      | Some (true, s) => iterLoop iters fuel (currDepth + 1) s
      | Some (false, s) => Some s
      | None => None
      end
    end
  else Some s.


Definition iterDeep (iters fuel : nat) (s : Search) : option Search :=
  s ← iterLoop iters fuel 1 s;
  Some (if _logUci s
        then set_stdout (stdout s ++ [BestMoveLine (getBestMove s)]) s
        else s).

End SearchModel.

(** * The vocabulary of the properties *)

Section Vocabulary.
Context `{E : Engine}.

(** ** Relations between the state before and after a call

    A relation that is a preorder and holds across each elementary step of
    the search holds across every call.  The laws are split in those of the
    cancellation check, the one of the node count, and those of the move
    loop of [_negaMax]; [M] is what is known of the moves handed out by the
    pickers. *)

(** Every call of [f] that returns relates the state before to the state
    after. *)
Definition qRespects (R : Search → Search → Prop) (f : SearchFn) : Prop :=
  ∀ b alpha beta s v s', f b alpha beta s = Some (v, s') → R s s'.

Definition dRespects (R : Search → Search → Prop) (f : DepthSearchFn) : Prop :=
  ∀ b d alpha beta s v s', f b d alpha beta s = Some (v, s') → R s s'.

(** The laws of a preorder and of the cancellation check. *)
Record PollLaws (R : Search → Search → Prop) : Prop := {
  ql_refl : ∀ s, R s s;
  ql_trans : ∀ s1 s2 s3, R s1 s2 → R s2 s3 → R s1 s3;
  ql_poll : ∀ s, R s (stopOrCheckLimits s).2;
  ql_stop : ∀ s, R s (set_stop true s)
}.

(** The law of the stand-pat evaluation and the node count. *)
Definition CountLaw (R : Search → Search → Prop) : Prop :=
  ∀ s, R s (set_nodes (_nodes s + 1) (set_evals (S (evals s)) s)).

(** The laws of the move loop: a descent with its return, the records of a
    beta cutoff, and a cache store. *)
Record NegaMaxLaws (M : Move → Prop) (R : Search → Search → Prop) : Prop := {
  nl_quiescence : PollLaws R;
  nl_descend : ∀ s s1,
    R (set_orderingInfo (incrementPly (_orderingInfo s)) s) s1 →
    R s (set_orderingInfo (deincrementPly (_orderingInfo s1)) s1);
  nl_cutoff : ∀ board depth score move s,
    M move → R s (recordCutoff board depth score move s);
  nl_store : ∀ key e s,
    M (ttBestMove e) → R s (set_tt (ttSet key e (_tt s)) s)
}.

(** What the generic argument needs to know of the moves it stores. *)
Record PickedMoves (M : Move → Prop) : Prop := {
  pm_general : ∀ o t b m,
    In m (generalOrder o t b (getLegalMoves b)) → M m;
  pm_legal : ∀ b m, In m (getLegalMoves b) → M m;
  pm_not_null : ∀ m, hasFlag m NULL_MOVE = false → M m
}.

(** What no call of [_negaMax] or [_qSearch] touches. *)
Definition sameRun (s s' : Search) : Prop :=
  _limits s' = _limits s ∧ _board s' = _board s ∧ _logUci s' = _logUci s
  ∧ _bestScore s' = _bestScore s ∧ _bestMove s' = _bestMove s
  ∧ _searchDepth s' = _searchDepth s ∧ _timeAllocated s' = _timeAllocated s
  ∧ stdout s' = stdout s.

(** The ply counter is where it was. *)
Definition samePly (s s' : Search) : Prop :=
  getPly (_orderingInfo s') = getPly (_orderingInfo s).

(** The history weights of the side that is not to move at the root. *)
Definition otherSideHistory (s s' : Search) : Prop :=
  _board s' = _board s
  ∧ ∀ from to,
      getHistory (_orderingInfo s')
        (getOppositeColor (getActivePlayer (_board s))) from to
      = getHistory (_orderingInfo s)
          (getOppositeColor (getActivePlayer (_board s))) from to.

(** The node counter has grown by the number of static evaluations made. *)
Definition countsEvals (s s' : Search) : Prop :=
  (evals s ≤ evals s')%nat
  ∧ _nodes s' = _nodes s + Z.of_nat (evals s' - evals s).

(** What a root search leaves as it was. *)
Definition sameConfig (s s' : Search) : Prop :=
  _limits s' = _limits s ∧ _board s' = _board s ∧ _logUci s' = _logUci s
  ∧ _searchDepth s' = _searchDepth s ∧ _timeAllocated s' = _timeAllocated s
  ∧ stdout s' = stdout s.

(** The move does not carry the null-move flag. *)
Definition notNull (m : Move) : Prop := hasFlag m NULL_MOVE = false.

(** Every entry of the cache carries a move without the null-move flag. *)
Definition cacheHoldsMoves (tt : TranspTable) : Prop :=
  map_Forall (λ _ e, notNull (ttBestMove e)) tt.

(** A cache without null moves stays without null moves. *)
Definition keepsCacheMoves (s s' : Search) : Prop :=
  cacheHoldsMoves (_tt s) → cacheHoldsMoves (_tt s').

(** The cache is what it was. *)
Definition sameCache (s s' : Search) : Prop := _tt s' = _tt s.




(** The invariant of the counters: while the search runs, the nodes counted
    plus the limit checks left before the next poll stay within the cap
    plus one polling interval. *)
Definition nodeBudget (s : Search) : Prop :=
  0 ≤ _limitCheckCount s ≤ 4096
  ∧ _nodes s ≤ l_nodes (_limits s) + 4096
  ∧ (_stop s = false →
     _nodes s + _limitCheckCount s ≤ l_nodes (_limits s) + 4096).

(** The limits are unchanged and, under a positive node cap, a state within
    the budget leads to a state within the budget. *)
Definition budgetKept (s s' : Search) : Prop :=
  _limits s' = _limits s
  ∧ (0 < l_nodes (_limits s) → nodeBudget s → nodeBudget s').

(** ** Further vocabulary *)

(** The stop flag, once set, is still set. *)
Definition stopKept (s s' : Search) : Prop := _stop s = true → _stop s' = true.

(** The node counter has not gone down. *)
Definition nodesGrow (s s' : Search) : Prop := _nodes s ≤ _nodes s'.

(** The state with the cache and the ordering tables replaced. *)
Definition withTables (t : TranspTable) (o : OrderingInfo) (s : Search)
    : Search :=
  set_orderingInfo o (set_tt t s).

(** The move of the entry is a legal move of a position with the key. *)
Definition legalAt (key : Z) (e : TranspTableEntry) : Prop :=
  ∃ b, getZKey b = key ∧ In (ttBestMove e) (getLegalMoves b).

Definition cacheLegal (tt : TranspTable) : Prop := map_Forall legalAt tt.

Definition keepsLegal (s s' : Search) : Prop :=
  cacheLegal (_tt s) → cacheLegal (_tt s').

(** Every move of the line is legal in the position it is played in. *)
Fixpoint legalLine (board : Board) (line : list Move) : Prop :=
  match line with
  | [] => True
  | m :: rest => In m (getLegalMoves board) ∧ legalLine (doMove board m) rest
  end.

(** The depth and the time a progress line reports, and the line it
    carries. *)
Definition lineDepth (l : UciLine) : option Z :=
  match l with
  | InfoLine depth _ _ _ _ _ => Some depth
  | BestMoveLine _ => None
  end.

Definition lineTime (l : UciLine) : option Z :=
  match l with
  | InfoLine _ _ _ _ time _ => Some time
  | BestMoveLine _ => None
  end.

Definition linePv (l : UciLine) : list Move :=
  match l with
  | InfoLine _ _ _ _ _ pv => pv
  | BestMoveLine _ => []
  end.

(** A progress line with a non-negative node count, a positive time and a
    rate within the range of [int]; when the node count times 1000 is
    within that range too, the rate lies between 0 and that product. *)
Definition lineSane (l : UciLine) : Prop :=
  match l with
  | InfoLine _ nodes _ nps time _ =>
    0 ≤ nodes ∧ 1 ≤ time ∧ INT_MIN ≤ nps ≤ INT_MAX
    ∧ (nodes * 1000 ≤ INT_MAX → 0 ≤ nps ≤ nodes * 1000)
  | BestMoveLine _ => True
  end.

(** [n] limit checks in a row. *)
Definition checksInARow (n : nat) (s : Search) : Search :=
  Nat.iter n (λ s, (checkLimits s).2) s.

(** Every line printed so far is a legal line from the root position. *)
Definition linesLegal (s : Search) : Prop :=
  Forall (λ l, legalLine (_board s) (linePv l)) (stdout s).

End Vocabulary.

(** * A small concrete engine

    A two-player counting game used to run the search on concrete inputs:
    a position holds a number of capturable stones and a number of quiet
    moves left; a capture removes a stone, a quiet move uses up a quiet
    move, and the side to move changes with every move. *)
Module Toy.

Record Position := mkPosition {
  side : Color;
  stones : nat;
  quiets : nat
}.

Definition captureMove : Move := mkMove 1 2 2.
Definition quietMove : Move := mkMove 3 4 0.

Definition legal (p : Position) : list Move :=
  (match stones p with O => [] | S _ => [captureMove] end)
  ++ (match quiets p with O => [] | S _ => [quietMove] end).

Definition play (p : Position) (m : Move) : Position :=
  if Z.land (getFlags m) 2 =? 0
  then mkPosition (getOppositeColor (side p)) (stones p) (Nat.pred (quiets p))
  else mkPosition (getOppositeColor (side p)) (Nat.pred (stones p)) (quiets p).

Definition key (p : Position) : Z :=
  Z.of_nat (stones p) * 1000 + Z.of_nat (quiets p) * 2
  + match side p with WHITE => 0 | BLACK => 1 end.

Definition inCheck (p : Position) (c : Color) : bool :=
  match c with WHITE => true | BLACK => false end.

Definition score (p : Position) (c : Color) : Z :=
  let v := 10 * Z.of_nat (stones p) - Z.of_nat (quiets p) + 5 in
  if decide (c = side p) then v else - v.

Definition captures (l : list Move) : list Move :=
  filter (λ m, Z.land (getFlags m) 2 ≠ 0) l.

(** The engine, for a given clock. *)
Definition engine (clock : nat → Z) : Engine := {|
  INF := 2147483647;
  MAX_SEARCH_DEPTH := 64;
  DEFAULT_SEARCH_DEPTH := 3;
  SUDDEN_DEATH_MOVESTOGO := 20;
  NULL_MOVE := 1;
  CAPTURE := 2;
  Board := Position;
  getActivePlayer := side;
  colorIsInCheck := inCheck;
  getZKey := key;
  doMove := play;
  getLegalMoves := legal;
  evalScore := score;
  generalOrder := λ _ _ _ l, l;
  captureOrder := captures;
  ttKeeps := λ _ _ _ _, true;
  historyBonus := λ d, d * d;
  elapsedMs := clock
|}.

(** The amount of material of a position. *)
Definition material (p : Position) : nat := stones p.

(** Two clocks: one that stands still, one that jumps to 1000 s at its
    23rd reading. *)
Definition still : Engine := engine (λ _, 0).

(** Positions. *)
Definition start : Position := mkPosition WHITE 1 1.
Definition quietOnly : Position := mkPosition WHITE 0 2.
Definition mated : Position := mkPosition WHITE 0 0.
Definition lastMove : Position := mkPosition BLACK 0 1.

(** Limits: none; depth 2 with a node cap of 1; 1000 ms left with an
    increment of 500 ms and 10 moves to go; 1 ms left; 1000 ms left. *)
Definition noLimits : Limits := mkLimits 0 (λ _, 0) (λ _, 0) 0 0 false.
Definition depth2Cap1 : Limits := mkLimits 2 (λ _, 0) (λ _, 0) 0 1 false.
Definition timed : Limits := mkLimits 0 (λ _, 1000) (λ _, 500) 10 0 false.
Definition oneMs : Limits := mkLimits 0 (λ _, 1) (λ _, 0) 0 0 false.

(** A search whose cache holds an EXACT entry of depth 2 for [start]. *)
Definition cached : @Search still :=
  @set_tt still {[key start := mkEntry 7 2 EXACT quietMove]}
    (@newSearch still start noLimits false).

(** A timed search from a larger position, 1000 ms left, and the state in
    which its loop starts the iteration at depth 22. *)
Definition larger : Position := mkPosition WHITE 13 4.



(** A new search from [start] without limits, and one from [quietOnly]. *)
Definition fresh : @Search still := @newSearch still start noLimits false.
Definition freshQuiet : @Search still :=
  @newSearch still quietOnly noLimits false.

(** A new search from [start] to depth 2 with a node cap of 1. *)
Definition capped : @Search still := @newSearch still start depth2Cap1 true.

(** A new search to depth 22 with a node cap of 1 from a larger position,
    and what is observed of a run: depth and node count of each progress
    line, the stop flag, the number of clock readings and the counter of
    limit checks. *)
Definition longRun : @Search still :=
  @newSearch still larger (mkLimits 22 (λ _, 0) (λ _, 0) 0 1 false) true.

Definition infoNodes (l : UciLine) : option (Z * Z) :=
  match l with
  | InfoLine depth nodes _ _ _ _ => Some (depth, nodes)
  | BestMoveLine _ => None
  end.

Definition observe (s : @Search still) : list (Z * Z) * bool * nat * Z :=
  (omap infoNodes (@stdout still s), @_stop still s, @clockReads still s,
   @_limitCheckCount still s).

(** A new search from [start] with 1 ms left, and one from [mated] without
    limits. *)
Definition blitz : @Search still := @newSearch still start oneMs true.
Definition freshMated : @Search still := @newSearch still mated noLimits true.

(** The state in which the search of [lastMove]'s only move, one ply below
    the root [quietOnly], returns. *)
Definition afterChild : @Search still :=
  match @negaMax still 5 (play lastMove quietMove) 0 (-100) 100
          (@set_orderingInfo still
             (incrementPly (@_orderingInfo still freshQuiet)) freshQuiet) with
  | Some (_, s) => s
  | None => freshQuiet
  end.

(** The same game with position keys that do not collide, and a new search
    from [start] to depth 3 with reporting on. *)
Definition exactKey (p : Position) : Z :=
  Z.pos (encode (stones p, quiets p,
                 match side p with WHITE => true | BLACK => false end)).

Definition exact : Engine := {|
  INF := 2147483647;
  MAX_SEARCH_DEPTH := 64;
  DEFAULT_SEARCH_DEPTH := 3;
  SUDDEN_DEATH_MOVESTOGO := 20;
  NULL_MOVE := 1;
  CAPTURE := 2;
  Board := Position;
  getActivePlayer := side;
  colorIsInCheck := inCheck;
  getZKey := exactKey;
  doMove := play;
  getLegalMoves := legal;
  evalScore := score;
  generalOrder := λ _ _ _ l, l;
  captureOrder := captures;
  ttKeeps := λ _ _ _ _, true;
  historyBonus := λ d, d * d;
  elapsedMs := λ _, 0
|}.

Definition reported : @Search exact := @newSearch exact start noLimits true.

(** Limits with a depth of -1; limits with 2000000 s left and as much
    increment; a new search from [start] with reporting on and no limits
    under the standing clock. *)
Definition negativeDepth : Limits := mkLimits (-1) (λ _, 0) (λ _, 0) 0 0 false.
Definition hugeClock : Limits :=
  mkLimits 0 (λ _, 2000000000) (λ _, 2000000000) 0 0 false.
Definition talking : @Search still := @newSearch still start noLimits true.

End Toy.

(** * Properties *)

Section Properties.
Context `{E : Engine}.

(** ** The cache *)

Lemma ttSet_lookup (key : Z) (e : TranspTableEntry) (tt : TranspTable) :
  ttSet key e tt !! key = Some e.
Proof. unfold ttSet. by rewrite lookup_insert_eq. Qed.

Lemma ttSet_Forall (P : Z → TranspTableEntry → Prop) (key : Z)
    (e : TranspTableEntry) (tt : TranspTable) :
  P key e → map_Forall P tt → map_Forall P (ttSet key e tt).
Proof.
  intros He Htt. unfold ttSet. apply map_Forall_insert_2; [done|].
  intros k x Hk. apply map_lookup_filter_Some in Hk as [Hk _]. by apply Htt.
Qed.


(** ** The limit poll *)

Lemma stopOrCheckLimits_shape (s : Search) :
  ∃ c n, (stopOrCheckLimits s).2
         = set_clockReads n (set_limitCheckCount c s).
Proof.
  unfold stopOrCheckLimits, checkLimits.
  destruct (_stop s) eqn:Hs; simpl.
  - exists (_limitCheckCount s), (clockReads s). by destruct s.
  - repeat case_match; simpl; eexists _, _; reflexivity.
Qed.

Lemma stopOrCheckLimits_stop (s : Search) :
  _stop (stopOrCheckLimits s).2 = _stop s.
Proof. destruct (stopOrCheckLimits_shape s) as (c & n & ->). done. Qed.

Lemma stopOrCheckLimits_running (s : Search) :
  (stopOrCheckLimits s).1 = false → _stop s = false.
Proof. unfold stopOrCheckLimits. by destruct (_stop s). Qed.

(** ** Relations kept by every call *)

Lemma anyMove_picked : PickedMoves (λ _, True).
Proof. by split. Qed.

Section Respect.
Variable R : Search → Search → Prop.

Lemma qSearchLoop_respects (rec : SearchFn) :
  PollLaws R → qRespects R rec →
  ∀ board beta picks alpha s v s',
    qSearchLoop rec board beta picks alpha s = Some (v, s') → R s s'.
Proof.
  intros L Hrec board beta picks.
  induction picks as [|m rest IH]; intros alpha s v s' H; simpl in H.
  - inversion H; subst. apply (ql_refl _ L).
  - destruct (rec _ _ _ s) as [[r s1]|] eqn:Hr; simpl in H; [|done].
    apply Hrec in Hr.
    destruct (beta <=? - r).
    + inversion H; subst. done.
    + apply IH in H. by eapply (ql_trans _ L).
Qed.

Lemma qSearchBody_respects (rec : SearchFn) :
  PollLaws R → CountLaw R → qRespects R rec → qRespects R (qSearchBody rec).
Proof.
  intros L Lc Hrec board alpha beta s v s' H. unfold qSearchBody in H.
  pose proof (ql_poll _ L s) as Hp.
  destruct (stopOrCheckLimits s) as [lim s1]; simpl in Hp.
  destruct lim.
  { inversion H; subst. eapply (ql_trans _ L); [done|]. apply (ql_stop _ L). }
  destruct (getLegalMoves board) as [|m0 ms].
  { destruct (colorIsInCheck _ _); by inversion H; subst. }
  pose proof (Lc s1) as Hn.
  assert (R s (set_nodes (_nodes s1 + 1) (set_evals (S (evals s1)) s1)))
    as Hsn by by eapply (ql_trans _ L).
  destruct (captureOrder (m0 :: ms)) as [|c cs].
  { by inversion H; subst. }
  destruct (beta <=? _).
  { by inversion H; subst. }
  apply (qSearchLoop_respects rec L Hrec) in H.
  by eapply (ql_trans _ L).
Qed.

Lemma qSearch_respects :
  PollLaws R → CountLaw R → ∀ fuel, qRespects R (qSearch fuel).
Proof.
  intros L Lc fuel. induction fuel as [|fuel IH]; simpl.
  - by intros ? ? ? ? ? ? ?.
  - by apply qSearchBody_respects.
Qed.

Variable M : Move → Prop.

Lemma negaMaxLoop_respects (rec : DepthSearchFn) :
  NegaMaxLaws M R → dRespects R rec →
  ∀ board depth beta picks alpha bestMove s ex,
    Forall M picks →
    negaMaxLoop rec board depth beta picks alpha bestMove s = Some ex →
    match ex with
    | LoopReturn _ s' => R s s'
    | LoopDone _ _ s' => R s s'
    end.
Proof.
  intros L Hrec board depth beta picks.
  pose proof (nl_quiescence _ _ L) as Lq.
  induction picks as [|m rest IH]; intros alpha bestMove s ex HM H; simpl in H.
  - inversion H; subst. apply (ql_refl _ Lq).
  - inversion HM as [|? ? Hm Hrest]; subst.
    destruct (rec _ _ _ _ _) as [[r s1]|] eqn:Hr; simpl in H; [|done].
    apply Hrec, (nl_descend _ _ L) in Hr.
    destruct (beta <=? - r).
    + inversion H; subst. eapply (ql_trans _ Lq); [done|].
      by apply (nl_cutoff _ _ L).
    + destruct (alpha <? - r); apply IH in H; try done;
        destruct ex; by eapply (ql_trans _ Lq).
Qed.

Lemma negaMaxSearch_respects (rec : DepthSearchFn) (qrec : SearchFn) :
  NegaMaxLaws M R → PickedMoves M → dRespects R rec → qRespects R qrec →
  ∀ board depth alphaOrig alpha beta s v s',
    negaMaxSearch rec qrec board depth alphaOrig alpha beta s = Some (v, s') →
    R s s'.
Proof.
  intros L P Hrec Hqrec board depth alphaOrig alpha beta s v s' H.
  pose proof (nl_quiescence _ _ L) as Lq.
  unfold negaMaxSearch in H.
  destruct (getLegalMoves board) as [|m0 ms] eqn:Hlegal.
  { inversion H; subst. apply (ql_refl _ Lq). }
  destruct (depth =? 0).
  { by eapply Hqrec. }
  destruct (negaMaxLoop _ _ _ _ _ _ _ _) as [ex|] eqn:Hloop; simpl in H; [|done].
  apply (negaMaxLoop_respects rec L Hrec) in Hloop.
  2:{ apply Forall_forall. intros m Hm%list_elem_of_In.
      rewrite <- Hlegal in Hm. by eapply (pm_general _ P). }
  destruct ex as [r s2|a bm s2]; inversion H; subst; [done|].
  eapply (ql_trans _ Lq); [done|]. apply (nl_store _ _ L). simpl.
  destruct (hasFlag bm NULL_MOVE) eqn:Hnull.
  - apply (pm_legal _ P board). rewrite Hlegal. by left.
  - by apply (pm_not_null _ P).
Qed.

Lemma negaMaxBody_respects (rec : DepthSearchFn) (qrec : SearchFn) :
  NegaMaxLaws M R → PickedMoves M → dRespects R rec → qRespects R qrec →
  dRespects R (negaMaxBody rec qrec).
Proof.
  intros L P Hrec Hqrec board depth alpha beta s v s' H.
  pose proof (nl_quiescence _ _ L) as Lq.
  unfold negaMaxBody in H.
  pose proof (ql_poll _ Lq s) as Hp.
  destruct (stopOrCheckLimits s) as [lim s1]; simpl in Hp.
  destruct lim.
  { inversion H; subst. eapply (ql_trans _ Lq); [done|]. apply (ql_stop _ Lq). }
  destruct (ttProbe _ _ _ _) as [r|a b].
  { by inversion H; subst. }
  apply (negaMaxSearch_respects rec qrec L P Hrec Hqrec) in H.
  by eapply (ql_trans _ Lq).
Qed.

Lemma negaMax_respects :
  NegaMaxLaws M R → CountLaw R → PickedMoves M →
  ∀ fuel, dRespects R (negaMax fuel).
Proof.
  intros L Lc P fuel. induction fuel as [|fuel IH]; simpl.
  - by intros ? ? ? ? ? ? ? ?.
  - apply negaMaxBody_respects; try done.
    apply qSearch_respects; [apply (nl_quiescence _ _ L)|done].
Qed.

Lemma rootMaxLoop_respects (rec : DepthSearchFn) :
  NegaMaxLaws M R → dRespects R rec →
  ∀ board depth beta picks alpha bestMove s a bm s',
    rootMaxLoop rec board depth beta picks alpha bestMove s = Some (a, bm, s') →
    R s s'.
Proof.
  intros L Hrec board depth beta picks.
  pose proof (nl_quiescence _ _ L) as Lq.
  induction picks as [|m rest IH]; intros alpha bestMove s a bm s' H; simpl in H.
  - inversion H; subst. apply (ql_refl _ Lq).
  - destruct (rec _ _ _ _ _) as [[r s1]|] eqn:Hr; simpl in H; [|done].
    apply Hrec, (nl_descend _ _ L) in Hr.
    match type of H with context [stopOrCheckLimits ?x] =>
      pose proof (ql_poll _ Lq x) as Hp;
      destruct (stopOrCheckLimits x) as [lim s2] end.
    simpl in Hp.
    assert (R s s2) as Hs2 by by eapply (ql_trans _ Lq).
    destruct lim.
    { inversion H; subst. eapply (ql_trans _ Lq); [done|]. apply (ql_stop _ Lq). }
    destruct (alpha <? - r).
    + destruct (- r =? INF).
      * by inversion H; subst.
      * apply IH in H. by eapply (ql_trans _ Lq).
    + apply IH in H. by eapply (ql_trans _ Lq).
Qed.

End Respect.

(** ** What a search call never touches *)

Lemma sameRun_laws : NegaMaxLaws (λ _, True) sameRun.
Proof.
  split; [split|..]; unfold sameRun.
  - done.
  - intros s1 s2 s3 H12 H23. destruct_and!. repeat split; congruence.
  - intros s. by destruct (stopOrCheckLimits_shape s) as (c & n & ->).
  - done.
  - intros s s1 H. simpl in *. done.
  - intros board depth score move s _. unfold recordCutoff.
    by destruct (negb _).
  - done.
Qed.

Lemma sameRun_count : CountLaw sameRun.
Proof. by intros s. Qed.

Lemma negaMax_sameRun fuel : dRespects sameRun (negaMax fuel).
Proof.
  apply (negaMax_respects _ _ sameRun_laws sameRun_count anyMove_picked).
Qed.

Lemma qSearch_sameRun fuel : qRespects sameRun (qSearch fuel).
Proof. apply qSearch_respects; [apply sameRun_laws|apply sameRun_count]. Qed.

(** ** The cache probe (step 2 of NegaMax) *)

Lemma negaMaxBody_running rec qrec board depth alpha beta s :
  (stopOrCheckLimits s).1 = false →
  negaMaxBody rec qrec board depth alpha beta s
  = match ttProbe (getEntry (_tt s) (getZKey board)) depth alpha beta with
    | ProbeReturn r => Some (r, (stopOrCheckLimits s).2)
    | ProbeWindow a b =>
      negaMaxSearch rec qrec board depth alpha a b (stopOrCheckLimits s).2
    end.
Proof.
  intros Hrun. unfold negaMaxBody.
  assert (_tt (stopOrCheckLimits s).2 = _tt s) as Htt
    by by destruct (stopOrCheckLimits_shape s) as (c & n & ->).
  destruct (stopOrCheckLimits s) as [lim s1]; simpl in *; subst lim.
  by rewrite Htt.
Qed.

(** C1. Once the cancellation check has passed, [_negaMax] treats a cache
    entry of the position as follows.  With stored depth >= the requested
    depth: an EXACT entry's score is returned at once; a LOWER_BOUND entry
    raises alpha to the maximum of alpha and the stored score, an
    UPPER_BOUND entry lowers beta to the minimum of beta and the stored
    score, and if then alpha >= beta the stored score is returned, else the
    search goes on with the tightened window.  With stored depth < the
    requested depth the search goes on with the window unchanged. *)
Theorem negaMax_cache_probe (fuel : nat) (board : Board)
    (depth alpha beta : Z) (s : Search) (e : TranspTableEntry) :
  (stopOrCheckLimits s).1 = false →
  getEntry (_tt s) (getZKey board) = Some e →
  let s1 := (stopOrCheckLimits s).2 in
  let run := negaMax (S fuel) board depth alpha beta s in
  let search := negaMaxSearch (negaMax fuel) (qSearch fuel) board depth alpha in
  (depth ≤ getDepth e → getFlag e = EXACT → run = Some (getScore e, s1))
  ∧ (depth ≤ getDepth e → getFlag e = LOWER_BOUND →
       (beta ≤ Z.max alpha (getScore e) → run = Some (getScore e, s1))
       ∧ (Z.max alpha (getScore e) < beta →
            run = search (Z.max alpha (getScore e)) beta s1))
  ∧ (depth ≤ getDepth e → getFlag e = UPPER_BOUND →
       (Z.min beta (getScore e) ≤ alpha → run = Some (getScore e, s1))
       ∧ (alpha < Z.min beta (getScore e) →
            run = search alpha (Z.min beta (getScore e)) s1))
  ∧ (getDepth e < depth → run = search alpha beta s1).
Proof.
  intros Hrun He s1 run search. subst run s1 search. simpl.
  rewrite negaMaxBody_running by done. rewrite He. unfold ttProbe.
  repeat split; intros.
  - rewrite (proj2 (Z.leb_le _ _)) by done. by rewrite H0.
  - rewrite (proj2 (Z.leb_le _ _)) by done. rewrite H0.
    by rewrite (proj2 (Z.leb_le _ _)).
  - rewrite (proj2 (Z.leb_le _ _)) by done. rewrite H0.
    by rewrite (proj2 (Z.leb_gt _ _)).
  - rewrite (proj2 (Z.leb_le _ _)) by done. rewrite H0.
    by rewrite (proj2 (Z.leb_le _ _)).
  - rewrite (proj2 (Z.leb_le _ _)) by done. rewrite H0.
    by rewrite (proj2 (Z.leb_gt _ _)).
  - by rewrite (proj2 (Z.leb_gt _ _)).
Qed.

(** ** Terminal positions *)

(** C3, as the code has it.  At a position without legal moves, a call
    that passes its cancellation check returns -INF if the side to move is
    in check and 0 otherwise, whatever the depth and the window: always in
    [_qSearch], and in [_negaMax] when the cache probe does not return
    first. *)
Theorem terminal_score (fuel : nat) (board : Board) (depth alpha beta : Z)
    (s : Search) :
  getLegalMoves board = [] →
  (stopOrCheckLimits s).1 = false →
  let s1 := (stopOrCheckLimits s).2 in
  let score := if colorIsInCheck board (getActivePlayer board)
               then - INF else 0 in
  qSearch (S fuel) board alpha beta s = Some (score, s1)
  ∧ (∀ a b,
       ttProbe (getEntry (_tt s) (getZKey board)) depth alpha beta
       = ProbeWindow a b →
       negaMax (S fuel) board depth alpha beta s = Some (score, s1)).
Proof.
  intros Hterm Hrun s1 score. subst s1 score. split.
  - simpl. unfold qSearchBody.
    destruct (stopOrCheckLimits s) as [lim s1]; simpl in *; subst lim.
    rewrite Hterm. by destruct (colorIsInCheck _ _).
  - intros a b Hprobe. simpl. rewrite negaMaxBody_running by done.
    rewrite Hprobe. unfold negaMaxSearch. by rewrite Hterm.
Qed.

(** ** The constructor's time policy *)

Lemma toInt_fits (z : Z) : INT_MIN ≤ z ≤ INT_MAX → toInt z = z.
Proof.
  unfold INT_MIN, INT_MAX, toInt. intros Hz.
  rewrite Z.mod_small by lia. lia.
Qed.

(** C6, as the code has it.  With limits that are neither infinite nor
    fixed-depth and a nonzero remaining time for the side to move, the
    iteration ceiling is MAX_SEARCH_DEPTH and the time budget is the
    remaining time plus the increment of the side to move, divided by
    moves-to-go, or by SUDDEN_DEATH_MOVESTOGO when moves-to-go is zero;
    this for a sum between -INT_MAX and INT_MAX, which the [int] that holds
    it represents, as it does its quotients. *)
Theorem timed_search_budget (board : Board) (limits : Limits) (logUci : bool) :
  l_infinite limits = false →
  l_depth limits = 0 →
  l_time limits (getActivePlayer board) ≠ 0 →
  let s := newSearch board limits logUci in
  let timeRemaining := l_time limits (getActivePlayer board)
                       + l_increment limits (getActivePlayer board) in
  - INT_MAX ≤ timeRemaining ≤ INT_MAX →
  _searchDepth s = MAX_SEARCH_DEPTH
  ∧ (l_movesToGo limits = 0 →
       _timeAllocated s = timeRemaining ÷ SUDDEN_DEATH_MOVESTOGO)
  ∧ (l_movesToGo limits ≠ 0 →
       _timeAllocated s = timeRemaining ÷ l_movesToGo limits).
Proof.
  intros Hinf Hdepth Htime s timeRemaining Hfits. subst s timeRemaining.
  simpl. unfold resolveLimits.
  rewrite Hinf, Hdepth. simpl.
  rewrite (proj2 (Z.eqb_neq _ _) Htime). simpl.
  rewrite toInt_fits by (unfold INT_MIN, INT_MAX in *; lia).
  repeat split.
  - intros ->. done.
  - intros Hm. by rewrite (proj2 (Z.eqb_neq _ _) Hm).
Qed.

(** ** The ply counter *)

Lemma samePly_count : CountLaw samePly.
Proof. by intros s. Qed.

Lemma samePly_laws : NegaMaxLaws (λ _, True) samePly.
Proof.
  split; [split|..]; unfold samePly.
  - done.
  - intros s1 s2 s3 H12 H23. congruence.
  - intros s. by destruct (stopOrCheckLimits_shape s) as (c & n & ->).
  - done.
  - intros s s1. unfold getPly. simpl. lia.
  - intros board depth score move s _. unfold recordCutoff.
    by destruct (negb _).
  - done.
Qed.

(** ** Fail-hard containment of the move loops *)

Lemma ttProbe_window ttEntry depth alpha beta a b :
  ttProbe ttEntry depth alpha beta = ProbeWindow a b →
  alpha ≤ a ∧ b ≤ beta ∧ (alpha ≤ beta → a ≤ b).
Proof.
  unfold ttProbe. intros H.
  destruct ttEntry as [e|]; [|inversion H; lia].
  destruct (depth <=? getDepth e); [|inversion H; lia].
  destruct (getFlag e); [done| |].
  - destruct (beta <=? Z.max alpha (getScore e)) eqn:Hc; [done|].
    apply Z.leb_gt in Hc. inversion H; subst. lia.
  - destruct (Z.min beta (getScore e) <=? alpha) eqn:Hc; [done|].
    apply Z.leb_gt in Hc. inversion H; subst. lia.
Qed.

Lemma qSearchLoop_contained rec board beta picks :
  ∀ alpha s v s',
    alpha ≤ beta →
    qSearchLoop rec board beta picks alpha s = Some (v, s') →
    alpha ≤ v ≤ beta.
Proof.
  induction picks as [|m rest IH]; intros alpha s v s' Hab H; simpl in H.
  - inversion H; subst. lia.
  - destruct (rec _ _ _ s) as [[r s1]|]; simpl in H; [|done].
    destruct (beta <=? - r) eqn:Hcut.
    + inversion H; subst. lia.
    + apply Z.leb_gt in Hcut.
      destruct (alpha <? - r) eqn:Hraise; apply IH in H; lia.
Qed.

Lemma negaMaxLoop_contained rec board depth beta picks :
  ∀ alpha bestMove s ex,
    alpha ≤ beta →
    negaMaxLoop rec board depth beta picks alpha bestMove s = Some ex →
    match ex with
    | LoopReturn v _ => v = beta
    | LoopDone a _ _ => alpha ≤ a ≤ beta
    end.
Proof.
  induction picks as [|m rest IH]; intros alpha bestMove s ex Hab H; simpl in H.
  - inversion H; subst. lia.
  - destruct (rec _ _ _ _ _) as [[r s1]|]; simpl in H; [|done].
    destruct (beta <=? - r) eqn:Hcut.
    + by inversion H; subst.
    + apply Z.leb_gt in Hcut.
      destruct (alpha <? - r) eqn:Hraise; apply IH in H; try lia;
        destruct ex; lia.
Qed.

Lemma qSearch_contained fuel board alpha beta s v s' :
  alpha ≤ beta →
  (stopOrCheckLimits s).1 = false →
  getLegalMoves board ≠ [] →
  captureOrder (getLegalMoves board) ≠ [] →
  qSearch fuel board alpha beta s = Some (v, s') →
  alpha ≤ v ≤ beta.
Proof.
  intros Hab Hrun Hlegal Hcap H. destruct fuel as [|fuel]; [done|].
  simpl in H. unfold qSearchBody in H.
  destruct (stopOrCheckLimits s) as [lim s1]; simpl in Hrun; subst lim.
  destruct (getLegalMoves board) as [|m0 ms]; [done|].
  destruct (captureOrder (m0 :: ms)) as [|c cs]; [done|].
  destruct (beta <=? _) eqn:Hpat.
  { inversion H; subst. lia. }
  apply Z.leb_gt in Hpat.
  apply qSearchLoop_contained in H.
  - destruct (alpha <? _) eqn:Hlt; [apply Z.ltb_lt in Hlt|]; lia.
  - destruct (alpha <? _); lia.
Qed.

Lemma negaMax_contained fuel board depth alpha beta s a b v s' :
  alpha ≤ beta →
  (stopOrCheckLimits s).1 = false →
  getLegalMoves board ≠ [] →
  depth ≠ 0 →
  ttProbe (getEntry (_tt s) (getZKey board)) depth alpha beta = ProbeWindow a b →
  negaMax fuel board depth alpha beta s = Some (v, s') →
  alpha ≤ v ≤ beta.
Proof.
  intros Hab Hrun Hlegal Hdepth Hprobe H. destruct fuel as [|fuel]; [done|].
  simpl in H. rewrite negaMaxBody_running in H by done.
  rewrite Hprobe in H. apply ttProbe_window in Hprobe.
  unfold negaMaxSearch in H.
  destruct (getLegalMoves board) as [|m0 ms]; [done|].
  rewrite (proj2 (Z.eqb_neq _ _) Hdepth) in H.
  destruct (negaMaxLoop _ _ _ _ _ _ _ _) as [ex|] eqn:Hloop; simpl in H; [|done].
  apply negaMaxLoop_contained in Hloop; [|lia].
  destruct ex; inversion H; subst; lia.
Qed.

(** ** Termination

    The recursion of [_qSearch] ends because a capture removes material;
    [material] is any measure that the picked captures decrease and that no
    picked move increases (in chess: the number of pieces on the board). *)

Section Termination.
Variable material : Board → nat.
Hypothesis capture_shrinks : ∀ b m,
  In m (captureOrder (getLegalMoves b)) →
  (material (doMove b m) < material b)%nat.
Hypothesis move_keeps : ∀ o t b m,
  In m (generalOrder o t b (getLegalMoves b)) →
  (material (doMove b m) ≤ material b)%nat.

Lemma qSearchLoop_total (rec : SearchFn) board beta picks :
  (∀ m, In m picks → ∀ a b s, is_Some (rec (doMove board m) a b s)) →
  ∀ alpha s, is_Some (qSearchLoop rec board beta picks alpha s).
Proof.
  induction picks as [|m rest IH]; intros Hrec alpha s; simpl; [done|].
  destruct (Hrec m (or_introl eq_refl) (- beta) (- alpha) s) as [[r s1] ->].
  simpl. destruct (beta <=? - r); [done|].
  apply IH. intros m' Hm'. apply Hrec. by right.
Qed.

Lemma qSearch_total fuel :
  ∀ board alpha beta s,
    (material board < fuel)%nat → is_Some (qSearch fuel board alpha beta s).
Proof.
  induction fuel as [|fuel IH]; intros board alpha beta s Hfuel; [lia|].
  simpl. unfold qSearchBody.
  destruct (stopOrCheckLimits s) as [[] s1]; [done|].
  destruct (getLegalMoves board) as [|m0 ms] eqn:Hlegal.
  { by destruct (colorIsInCheck _ _). }
  destruct (captureOrder (m0 :: ms)) as [|c cs] eqn:Hcap; [done|].
  destruct (beta <=? _); [done|].
  apply qSearchLoop_total. intros m Hm a b s2. apply IH.
  rewrite <- Hcap, <- Hlegal in Hm. apply capture_shrinks in Hm. lia.
Qed.

Lemma negaMaxLoop_total (rec : DepthSearchFn) board depth beta picks :
  (∀ m, In m picks → ∀ a b s, is_Some (rec (doMove board m) (depth - 1) a b s)) →
  ∀ alpha bestMove s,
    is_Some (negaMaxLoop rec board depth beta picks alpha bestMove s).
Proof.
  induction picks as [|m rest IH]; intros Hrec alpha bestMove s; simpl; [done|].
  destruct (Hrec m (or_introl eq_refl) (- beta) (- alpha)
              (set_orderingInfo (incrementPly (_orderingInfo s)) s))
    as [[r s1] ->].
  simpl. destruct (beta <=? - r); [done|].
  destruct (alpha <? - r); apply IH; intros m' Hm'; apply Hrec; by right.
Qed.

Lemma negaMax_total fuel :
  ∀ board depth alpha beta s,
    0 ≤ depth →
    (Z.to_nat depth + material board + 1 < fuel)%nat →
    is_Some (negaMax fuel board depth alpha beta s).
Proof.
  induction fuel as [|fuel IH]; intros board depth alpha beta s Hd Hfuel; [lia|].
  simpl. unfold negaMaxBody.
  destruct (stopOrCheckLimits s) as [[] s1]; [done|].
  destruct (ttProbe _ _ _ _) as [r|a b]; [done|].
  unfold negaMaxSearch.
  destruct (getLegalMoves board) as [|m0 ms] eqn:Hlegal; [done|].
  destruct (depth =? 0) eqn:Hd0.
  { apply qSearch_total. lia. }
  apply Z.eqb_neq in Hd0.
  match goal with |- is_Some (?l ≫= _) =>
    assert (is_Some l) as [ex ->] end.
  { apply negaMaxLoop_total. intros m Hm a' b' s2. apply IH; [lia|].
    rewrite <- Hlegal in Hm. apply move_keeps in Hm. lia. }
  simpl. by destruct ex.
Qed.

Lemma rootMaxLoop_total (rec : DepthSearchFn) board depth beta picks :
  (∀ m, In m picks → ∀ a b s, is_Some (rec (doMove board m) (depth - 1) a b s)) →
  ∀ alpha bestMove s,
    is_Some (rootMaxLoop rec board depth beta picks alpha bestMove s).
Proof.
  induction picks as [|m rest IH]; intros Hrec alpha bestMove s; simpl; [done|].
  destruct (Hrec m (or_introl eq_refl) (- beta) (- alpha)
              (set_orderingInfo (incrementPly (_orderingInfo s)) s))
    as [[r s1] ->].
  simpl. destruct (stopOrCheckLimits _) as [[] s2]; [done|].
  destruct (alpha <? - r); [destruct (- r =? INF); [done|]|];
    apply IH; intros m' Hm'; apply Hrec; by right.
Qed.

Lemma rootMax_total fuel board depth s :
  1 ≤ depth →
  (Z.to_nat depth + material board < fuel)%nat →
  is_Some (rootMax fuel board depth s).
Proof.
  intros Hd Hfuel. unfold rootMax, rootMaxBody.
  destruct (getLegalMoves board) as [|m0 ms] eqn:Hlegal; [done|].
  match goal with |- is_Some (?l ≫= _) =>
    assert (is_Some l) as [[[a bm] s1] ->] end.
  { apply rootMaxLoop_total. intros m Hm a b s2. apply negaMax_total; [lia|].
    rewrite <- Hlegal in Hm. apply move_keeps in Hm. lia. }
  simpl. by destruct (negb (_stop s1)).
Qed.

(** C2, as the code has it.  With alpha <= beta, a call that passes its
    cancellation check at a position with legal moves returns a value in
    [alpha, beta] when it returns through its move loop: [_qSearch] when
    the position has a capture, [_negaMax] when the depth is not 0 and the
    cache probe does not return.  Such a call returns once it has fuel for
    the depth and the material of the position.  (The other exits return
    the cancellation value 0, a cached score, a terminal score or the
    stand-pat score, whatever the window.) *)
Theorem failhard_containment (fuel : nat) (board : Board)
    (depth alpha beta : Z) (s : Search) :
  alpha ≤ beta →
  (stopOrCheckLimits s).1 = false →
  getLegalMoves board ≠ [] →
  (captureOrder (getLegalMoves board) ≠ [] →
     (∀ v s', qSearch fuel board alpha beta s = Some (v, s') → alpha ≤ v ≤ beta)
     ∧ ((material board < fuel)%nat →
          ∃ v s', qSearch fuel board alpha beta s = Some (v, s')))
  ∧ (depth ≠ 0 →
     (∀ r, ttProbe (getEntry (_tt s) (getZKey board)) depth alpha beta
           ≠ ProbeReturn r) →
     (∀ v s', negaMax fuel board depth alpha beta s = Some (v, s') →
              alpha ≤ v ≤ beta)
     ∧ (0 ≤ depth → (Z.to_nat depth + material board + 1 < fuel)%nat →
          ∃ v s', negaMax fuel board depth alpha beta s = Some (v, s'))).
Proof.
  intros Hab Hrun Hlegal. split.
  - intros Hcap. split.
    + intros v s'. by apply qSearch_contained.
    + intros Hfuel.
      destruct (qSearch_total fuel board alpha beta s Hfuel) as [[v s'] H].
      by exists v, s'.
  - intros Hdepth Hprobe. split.
    + intros v s' H.
      destruct (ttProbe (getEntry (_tt s) (getZKey board)) depth alpha beta)
        as [r|a b] eqn:Hp; [by destruct (Hprobe r)|].
      by eapply negaMax_contained.
    + intros Hd Hfuel.
      destruct (negaMax_total fuel board depth alpha beta s Hd Hfuel)
        as [[v s'] H].
      by exists v, s'.
Qed.

(** C7. The ply counter of the ordering state is the same after a call as
    before it, for every call of [_negaMax], [_qSearch] and [_rootMax] that
    returns, whichever exit it takes (cancellation included): each
    incrementPly of a descent is undone by the deincrementPly that follows
    the recursive call.  Calls with a non-negative depth do return, once
    they have fuel for the depth and the material of the position. *)
Theorem ply_balanced (fuel : nat) (board : Board) (depth alpha beta : Z)
    (s : Search) :
  ((∀ v s', negaMax fuel board depth alpha beta s = Some (v, s') →
            getPly (_orderingInfo s') = getPly (_orderingInfo s))
   ∧ (∀ v s', qSearch fuel board alpha beta s = Some (v, s') →
              getPly (_orderingInfo s') = getPly (_orderingInfo s))
   ∧ (∀ s', rootMax fuel board depth s = Some s' →
            getPly (_orderingInfo s') = getPly (_orderingInfo s)))
  ∧ ((Z.to_nat depth + material board + 1 < fuel)%nat →
     (0 ≤ depth → is_Some (negaMax fuel board depth alpha beta s))
     ∧ is_Some (qSearch fuel board alpha beta s)
     ∧ (1 ≤ depth → is_Some (rootMax fuel board depth s))).
Proof.
  split; [repeat split|].
  - intros v s' H.
    by apply (negaMax_respects _ _ samePly_laws samePly_count anyMove_picked)
      in H.
  - intros v s' H.
    by apply (qSearch_respects _ (nl_quiescence _ _ samePly_laws)
                samePly_count) in H.
  - intros s' H. unfold rootMax, rootMaxBody in H.
    destruct (getLegalMoves board) as [|m0 ms]; [by inversion H|].
    destruct (rootMaxLoop _ _ _ _ _ _ _ _) as [[[a bm] s1]|] eqn:Hloop;
      simpl in H; [|done].
    apply (rootMaxLoop_respects _ _ _ samePly_laws) in Hloop.
    2: apply (negaMax_respects _ _ samePly_laws samePly_count anyMove_picked).
    unfold samePly in Hloop. simpl in Hloop.
    destruct (negb (_stop s1)); inversion H; subst; done.
  - intros Hfuel. repeat split.
    + intros Hd. by apply negaMax_total.
    + apply qSearch_total. lia.
    + intros Hd. apply rootMax_total; [done|lia].
Qed.

End Termination.

(** ** The history table *)

Lemma getOppositeColor_neq c : getOppositeColor c ≠ c.
Proof. by destruct c. Qed.

Lemma getHistory_incrementHistory o c from to depth c' from' to' :
  getHistory (incrementHistory c from to depth o) c' from' to'
  = if decide ((c, from, to) = (c', from', to'))
    then getHistory o c from to + historyBonus depth
    else getHistory o c' from' to'.
Proof.
  unfold getHistory at 1, incrementHistory, incrementHistoryBy. simpl.
  rewrite lookup_insert. by case_decide.
Qed.

Lemma otherSideHistory_laws : NegaMaxLaws (λ _, True) otherSideHistory.
Proof.
  split; [split|..]; unfold otherSideHistory.
  - done.
  - intros s1 s2 s3 [Hb12 H12] [Hb23 H23]. split; [congruence|].
    intros from to. rewrite Hb12 in H23. by rewrite H23, H12.
  - intros s. by destruct (stopOrCheckLimits_shape s) as (c & n & ->).
  - done.
  - intros s s1 [Hb H]. simpl in *. done.
  - intros board depth score move s _. unfold recordCutoff.
    destruct (negb _); simpl; [|done]. split; [done|].
    intros from to. rewrite getHistory_incrementHistory.
    case_decide as Heq; [|done].
    inversion Heq as [[Hc Hf Ht]]. symmetry in Hc.
    by apply getOppositeColor_neq in Hc.
  - done.
Qed.

Lemma otherSideHistory_count : CountLaw otherSideHistory.
Proof. by intros s. Qed.

Lemma side_after_moves
    (flips : ∀ b m, getActivePlayer (doMove b m)
                    = getOppositeColor (getActivePlayer b))
    (path : list Move) :
  ∀ b, getActivePlayer (foldl doMove b path)
       = if Nat.even (length path) then getActivePlayer b
         else getOppositeColor (getActivePlayer b).
Proof.
  induction path as [|m path IH] using rev_ind; intros b; [done|].
  rewrite foldl_app, length_app. simpl. rewrite flips, IH.
  replace (length path + 1)%nat with (S (length path)) by lia.
  rewrite Nat.even_succ, <- Nat.negb_even.
  destruct (Nat.even (length path)); simpl; [done|].
  by destruct (getActivePlayer b).
Qed.

(** C9. When a quiet (non-capture) move causes a beta cutoff in the move
    loop of a [_negaMax] node, the history weight that grows is the one of
    the side to move at the root position [_board] of the search object:
    after the child search and the cutoff, that side's slot for the move is
    the slot after the child search plus the bonus of the depth, and no
    slot of the other side has changed since before the child search.  At
    an odd number of plies from the root, where each move changes the side
    to move, the side to move at the node is that other side. *)
Theorem history_keyed_on_root_side (fuel : nat) (board : Board)
    (depth alpha beta : Z) (move : Move) (rest : list Move) (bestMove : Move)
    (s s1 : Search) (r : Z) :
  negaMax fuel (doMove board move) (depth - 1) (- beta) (- alpha)
    (set_orderingInfo (incrementPly (_orderingInfo s)) s) = Some (r, s1) →
  beta ≤ - r →
  hasFlag move CAPTURE = false →
  let rootSide := getActivePlayer (_board s) in
  ∃ s2,
    negaMaxLoop (negaMax fuel) board depth beta (move :: rest) alpha bestMove s
    = Some (LoopReturn beta s2)
    ∧ getHistory (_orderingInfo s2) rootSide (getFrom move) (getTo move)
      = getHistory (_orderingInfo s1) rootSide (getFrom move) (getTo move)
        + historyBonus depth
    ∧ (∀ from to,
         getHistory (_orderingInfo s2) (getOppositeColor rootSide) from to
         = getHistory (_orderingInfo s) (getOppositeColor rootSide) from to)
    ∧ ((∀ b m, getActivePlayer (doMove b m)
               = getOppositeColor (getActivePlayer b)) →
       ∀ path, Nat.Odd (length path) →
               board = foldl doMove (_board s) path →
               getActivePlayer board = getOppositeColor rootSide).
Proof.
  intros Hchild Hcut Hquiet rootSide.
  eexists. split; [|split; [|split]].
  - simpl. rewrite Hchild. simpl.
    by rewrite (proj2 (Z.leb_le _ _) Hcut).
  - pose proof (negaMax_sameRun fuel _ _ _ _ _ _ _ Hchild) as Hsame.
    destruct Hsame as (_ & Hboard & _). simpl in Hboard.
    unfold recordCutoff. rewrite Hquiet. simpl.
    rewrite getHistory_incrementHistory. rewrite Hboard.
    by rewrite decide_True.
  - pose proof (negaMax_respects _ _ otherSideHistory_laws
                  otherSideHistory_count anyMove_picked fuel
                  _ _ _ _ _ _ _ Hchild) as Hother.
    apply (nl_descend _ _ otherSideHistory_laws) in Hother.
    pose proof (nl_cutoff _ _ otherSideHistory_laws board depth (- r) move
                  (set_orderingInfo (deincrementPly (_orderingInfo s1)) s1) I)
      as Hrec.
    destruct (ql_trans _ (nl_quiescence _ _ otherSideHistory_laws)
                _ _ _ Hother Hrec) as [_ H].
    apply H.
  - intros flips path Hodd ->. rewrite (side_after_moves flips).
    apply Nat.odd_spec in Hodd. rewrite <- Nat.negb_odd, Hodd. done.
Qed.

(** ** The node counter *)

Lemma rootMax_sameConfig fuel board depth s s' :
  rootMax fuel board depth s = Some s' → sameConfig s s'.
Proof.
  intros H. unfold rootMax, rootMaxBody in H.
  destruct (getLegalMoves board) as [|m0 ms]; [by inversion H|].
  destruct (rootMaxLoop _ _ _ _ _ _ _ _) as [[[a bm] s1]|] eqn:Hloop;
    simpl in H; [|done].
  apply (rootMaxLoop_respects _ _ _ sameRun_laws) in Hloop.
  2: apply negaMax_sameRun.
  unfold sameRun in Hloop. simpl in Hloop. destruct_and!.
  destruct (negb (_stop s1)); inversion H; subst; by repeat split.
Qed.

Lemma countsEvals_poll : PollLaws countsEvals.
Proof.
  split; unfold countsEvals.
  - intros s. split; [done|]. rewrite Nat.sub_diag. simpl. lia.
  - intros s1 s2 s3 [H1 H2] [H3 H4]. split; lia.
  - intros s. destruct (stopOrCheckLimits_shape s) as (c & n & ->). simpl.
    split; [done|]. rewrite Nat.sub_diag. simpl. lia.
  - intros s. simpl. split; [done|]. rewrite Nat.sub_diag. simpl. lia.
Qed.

Lemma countsEvals_laws : NegaMaxLaws (λ _, True) countsEvals.
Proof.
  split; [apply countsEvals_poll|..]; unfold countsEvals.
  - intros s s1 H. simpl in *. done.
  - intros board depth score move s _. unfold recordCutoff.
    destruct (negb _); simpl; (split; [done|]); rewrite Nat.sub_diag; simpl;
      lia.
  - intros key e s _. simpl. split; [done|]. rewrite Nat.sub_diag. simpl. lia.
Qed.

Lemma countsEvals_count : CountLaw countsEvals.
Proof. intros s. unfold countsEvals. simpl. split; lia. Qed.

(** A root search ends with the number of evaluations made during it. *)
Lemma rootMax_countsEvals fuel board depth s s' :
  rootMax fuel board depth s = Some s' →
  (evals s ≤ evals s')%nat ∧ _nodes s' = Z.of_nat (evals s' - evals s).
Proof.
  intros H. unfold rootMax, rootMaxBody in H.
  destruct (getLegalMoves board) as [|m0 ms].
  { inversion H; subst. simpl. split; [done|]. by rewrite Nat.sub_diag. }
  destruct (rootMaxLoop _ _ _ _ _ _ _ _) as [[[a bm] s1]|] eqn:Hloop;
    simpl in H; [|done].
  apply (rootMaxLoop_respects _ _ _ countsEvals_laws) in Hloop.
  2: apply (negaMax_respects _ _ countsEvals_laws countsEvals_count
              anyMove_picked).
  unfold countsEvals in Hloop. simpl in Hloop.
  destruct (negb (_stop s1)); inversion H; subst; simpl; done.
Qed.

(** A call at a terminal position, or one that is cancelled on entry,
    neither evaluates nor counts. *)
Lemma untouched_call fuel board depth alpha beta s v s' :
  getLegalMoves board = [] ∨ (stopOrCheckLimits s).1 = true →
  negaMax fuel board depth alpha beta s = Some (v, s')
  ∨ qSearch fuel board alpha beta s = Some (v, s') →
  _nodes s' = _nodes s ∧ evals s' = evals s.
Proof.
  intros Hcase H.
  destruct (stopOrCheckLimits_shape s) as (c & n & Hs).
  destruct fuel as [|fuel]; [by destruct H|]. simpl in H.
  unfold negaMaxBody, negaMaxSearch, qSearchBody in H.
  destruct (stopOrCheckLimits s) as [lim s1]. simpl in *. subst s1.
  destruct lim.
  { destruct H as [H|H]; by inversion H; subst. }
  destruct Hcase as [Hterm|?]; [|done]. rewrite Hterm in H.
  destruct H as [H|H].
  - destruct (ttProbe _ _ _ _); by inversion H; subst.
  - destruct (colorIsInCheck _ _); by inversion H; subst.
Qed.

(** A [_qSearch] call that passes its cancellation check at a position with
    legal moves evaluates the position: once exactly when there is no
    capture. *)
Lemma qSearch_evaluates fuel board alpha beta s v s' :
  (stopOrCheckLimits s).1 = false → getLegalMoves board ≠ [] →
  qSearch fuel board alpha beta s = Some (v, s') →
  (evals s < evals s')%nat
  ∧ (captureOrder (getLegalMoves board) = [] → evals s' = S (evals s)).
Proof.
  intros Hpass Hlegal H.
  destruct fuel as [|fuel]; [done|]. simpl in H. unfold qSearchBody in H.
  destruct (stopOrCheckLimits_shape s) as (c & n & Hs).
  destruct (stopOrCheckLimits s) as [lim s1]. simpl in *. subst lim s1.
  destruct (getLegalMoves board) as [|m0 ms]; [done|].
  destruct (captureOrder (m0 :: ms)) as [|c0 cs].
  { inversion H; subst. simpl. split; [lia|done]. }
  split; [|done].
  destruct (beta <=? _).
  { inversion H; subst. simpl. lia. }
  apply (qSearchLoop_respects _ _ countsEvals_poll) in H.
  2: apply (qSearch_respects _ countsEvals_poll countsEvals_count).
  destruct H as [H _]. simpl in H. lia.
Qed.

Section NodeCount.
Variable material : Board → nat.
Hypothesis capture_shrinks : ∀ b m,
  In m (captureOrder (getLegalMoves b)) →
  (material (doMove b m) < material b)%nat.
Hypothesis move_keeps : ∀ o t b m,
  In m (generalOrder o t b (getLegalMoves b)) →
  (material (doMove b m) ≤ material b)%nat.

(** C10. The node counter counts the static evaluations of the current
    iteration and nothing else.  Across every call of [_negaMax] and of
    [_qSearch], with everything they call, the counter grows by exactly the
    number of evaluations made ([Eval(...).getScore()], which only
    [_qSearch] calls, at its stand-pat step): the interior nodes of
    [_negaMax] add nothing.  A call at a terminal position or one cancelled
    on entry neither evaluates nor counts; a [_qSearch] call that is not
    cancelled at a position with legal moves evaluates it, exactly once
    when it has no capture.  [_rootMax] returns (given fuel for the depth
    and the material of the position) with a counter equal to the number of
    evaluations made during this root search, whatever the counter was
    before: it is reset at the start.  That number is what the progress
    line of the iteration carries, and a limit check that polls compares
    this counter with the node cap. *)
Theorem nodes_counted_in_quiescence_only (fuel : nat) (board : Board)
    (depth alpha beta : Z) (s : Search) :
  (∀ v s', negaMax fuel board depth alpha beta s = Some (v, s') →
           countsEvals s s')
  ∧ (∀ v s', qSearch fuel board alpha beta s = Some (v, s') →
             countsEvals s s'
             ∧ ((stopOrCheckLimits s).1 = false → getLegalMoves board ≠ [] →
                (evals s < evals s')%nat
                ∧ (captureOrder (getLegalMoves board) = [] →
                   _nodes s' = _nodes s + 1)))
  ∧ (getLegalMoves board = [] ∨ (stopOrCheckLimits s).1 = true →
     ∀ v s', negaMax fuel board depth alpha beta s = Some (v, s')
             ∨ qSearch fuel board alpha beta s = Some (v, s') →
             _nodes s' = _nodes s ∧ evals s' = evals s)
  ∧ (1 ≤ depth → (Z.to_nat depth + material board < fuel)%nat →
     ∃ s', rootMax fuel board depth s = Some s'
           ∧ (evals s ≤ evals s')%nat
           ∧ _nodes s' = Z.of_nat (evals s' - evals s))
  ∧ (1 ≤ depth → (Z.to_nat depth + material (_board s) < fuel)%nat →
     ∃ goOn s', iterBody fuel depth s = Some (goOn, s')
       ∧ _nodes s' = Z.of_nat (evals s' - evals s)
       ∧ (_stop s' = false → _logUci s = true →
          ∃ score nps time pv,
            stdout s'
            = stdout s
              ++ [InfoLine depth (Z.of_nat (evals s' - evals s)) score nps
                    time pv]))
  ∧ (_limitCheckCount s ≤ 1 →
     (checkLimits s).1
     = (negb (l_nodes (_limits s) =? 0) && (l_nodes (_limits s) <=? _nodes s))
       || (_timeAllocated s <=? elapsedMs (clockReads s))).
Proof.
  split; [|split; [|split; [|split; [|split]]]].
  - intros v s' H.
    by apply (negaMax_respects _ _ countsEvals_laws countsEvals_count
                anyMove_picked) in H.
  - intros v s' H.
    pose proof (qSearch_respects _ countsEvals_poll countsEvals_count
                  _ _ _ _ _ _ _ H) as Hcount.
    split; [done|]. intros Hpass Hlegal.
    destruct (qSearch_evaluates _ _ _ _ _ _ _ Hpass Hlegal H) as [Hlt Hone].
    split; [done|]. intros Hquiet. destruct Hcount as [_ ->].
    rewrite (Hone Hquiet). lia.
  - intros Hcase v s' H. by eapply untouched_call.
  - intros Hd Hfuel.
    destruct (rootMax_total material capture_shrinks move_keeps
                fuel board depth s Hd Hfuel) as [s' Hroot].
    exists s'. split; [done|]. by eapply rootMax_countsEvals.
  - intros Hd Hfuel.
    destruct (rootMax_total material capture_shrinks move_keeps
                fuel (_board s) depth s Hd Hfuel) as [s1 Hroot].
    pose proof (rootMax_countsEvals _ _ _ _ _ Hroot) as [Hle Hcount].
    pose proof (rootMax_sameConfig _ _ _ _ _ Hroot)
      as (_ & _ & Hlog & _ & _ & Hout).
    unfold iterBody. rewrite Hroot. simpl.
    destruct (_stop s1) eqn:Hstop.
    { eexists _, _. split; [done|]. simpl. split; [done|].
      intros Hrun. congruence. }
    rewrite Hlog. destruct (_logUci s) eqn:HlogUci.
    + unfold logUciInfo. simpl.
      destruct (_ <=? _); eexists _, _; (split; [done|]); simpl;
        (split; [done|]); intros _ _; rewrite Hout, <- Hcount;
        by eexists _, _, _, _.
    + simpl. destruct (_ <=? _); eexists _, _; (split; [done|]); simpl;
        by split.
  - intros Hc. unfold checkLimits. simpl.
    rewrite (proj2 (Z.ltb_ge _ _)) by lia.
    destruct (negb _ && _); [done|]. simpl. by destruct (_ <=? _).
Qed.

End NodeCount.

(** ** The null move *)

Lemma keepsCacheMoves_laws : NegaMaxLaws notNull keepsCacheMoves.
Proof.
  split; [split|..]; unfold keepsCacheMoves.
  - done.
  - intros s1 s2 s3 H12 H23 H. auto.
  - intros s. by destruct (stopOrCheckLimits_shape s) as (c & n & ->).
  - done.
  - intros s s1 H. simpl in *. done.
  - intros board depth score move s Hm H. unfold recordCutoff.
    destruct (negb _); simpl; by apply ttSet_Forall.
  - intros key e s Hm H. simpl. by apply ttSet_Forall.
Qed.

Lemma keepsCacheMoves_count : CountLaw keepsCacheMoves.
Proof. intros s H. apply H. Qed.

Section NullMove.
Hypothesis legal_not_null : ∀ b m, In m (getLegalMoves b) → notNull m.
Hypothesis general_picks_legal : ∀ o t b m,
  In m (generalOrder o t b (getLegalMoves b)) → In m (getLegalMoves b).

Lemma notNull_picked : PickedMoves notNull.
Proof.
  split.
  - intros o t b m Hm. eapply legal_not_null, general_picks_legal, Hm.
  - apply legal_not_null.
  - done.
Qed.

Lemma negaMax_keepsCacheMoves fuel : dRespects keepsCacheMoves (negaMax fuel).
Proof.
  apply (negaMax_respects _ _ keepsCacheMoves_laws keepsCacheMoves_count
           notNull_picked).
Qed.

(** What a root search does to the cache and to the best move. *)
Lemma rootMax_null_move fuel board depth s s' :
  rootMax fuel board depth s = Some s' →
  (cacheHoldsMoves (_tt s) → cacheHoldsMoves (_tt s'))
  ∧ (getLegalMoves board ≠ [] →
     (_stop s' = false → notNull (_bestMove s'))
     ∧ (notNull (_bestMove s) → notNull (_bestMove s'))).
Proof.
  intros H. unfold rootMax, rootMaxBody in H.
  destruct (getLegalMoves board) as [|m0 ms] eqn:Hlegal.
  { inversion H; subst. simpl. by split. }
  destruct (rootMaxLoop _ _ _ _ _ _ _ _) as [[[a bm] s1]|] eqn:Hloop;
    simpl in H; [|done].
  pose proof (rootMaxLoop_respects _ _ _ keepsCacheMoves_laws
                (negaMax_keepsCacheMoves fuel) _ _ _ _ _ _ _ _ _ _ Hloop)
    as Hcache.
  pose proof (rootMaxLoop_respects _ _ _ sameRun_laws
                (negaMax_sameRun fuel) _ _ _ _ _ _ _ _ _ _ Hloop)
    as (_ & _ & _ & _ & Hbest & _).
  unfold keepsCacheMoves in Hcache. simpl in Hcache, Hbest.
  assert (notNull (if hasFlag bm NULL_MOVE then m0 else bm)) as Hbm.
  { destruct (hasFlag bm NULL_MOVE) eqn:Hnull; [|done].
    apply (legal_not_null board). rewrite Hlegal. by left. }
  destruct (_stop s1) eqn:Hstop; simpl in H; inversion H; subst; simpl.
  - split; [done|]. intros _. rewrite Hstop, Hbest. by split.
  - split.
    + intros Hs. by apply ttSet_Forall; [|apply Hcache].
    + by intros _.
Qed.

Lemma iterBody_null_move fuel currDepth s goOn s' :
  iterBody fuel currDepth s = Some (goOn, s') →
  _board s' = _board s
  ∧ (cacheHoldsMoves (_tt s) → cacheHoldsMoves (_tt s'))
  ∧ (getLegalMoves (_board s) ≠ [] →
     notNull (_bestMove s) → notNull (_bestMove s')).
Proof.
  intros H. unfold iterBody in H.
  destruct (rootMax fuel (_board s) currDepth s) as [s1|] eqn:Hroot;
    simpl in H; [|done].
  pose proof (rootMax_sameConfig _ _ _ _ _ Hroot) as (_ & Hboard & _).
  apply rootMax_null_move in Hroot. destruct Hroot as [Hcache Hbest].
  assert (∀ P : Search → Prop,
            P (set_clockReads (S (clockReads s1)) s1) →
            P (logUciInfo (getPv currDepth s1) currDepth (_bestMove s1)
                 (_bestScore s1) (_nodes s1) (elapsedMs (clockReads s1))
                 (set_clockReads (S (clockReads s1)) s1)) →
            P s') as Hcases.
  { intros P H1 H2. destruct (_stop s1); [by inversion H; subst|].
    destruct (_logUci s1); destruct (_ <=? _); by inversion H; subst. }
  apply Hcases; simpl; (split; [done|]); split; try done;
    intros Hlegal; by apply Hbest.
Qed.

Lemma iterLoop_null_move iters fuel :
  ∀ currDepth s s',
    iterLoop iters fuel currDepth s = Some s' →
    _board s' = _board s
    ∧ (cacheHoldsMoves (_tt s) → cacheHoldsMoves (_tt s'))
    ∧ (getLegalMoves (_board s) ≠ [] →
       notNull (_bestMove s) → notNull (_bestMove s')).
Proof.
  induction iters as [|iters IH]; intros currDepth s s' H; simpl in H.
  - destruct (currDepth <=? _searchDepth s); [done|]. by inversion H; subst.
  - destruct (currDepth <=? _searchDepth s); [|by inversion H; subst].
    destruct (iterBody fuel currDepth s) as [[goOn s1]|] eqn:Hbody; [|done].
    apply iterBody_null_move in Hbody. destruct Hbody as (Hb & Hc & Hm).
    destruct goOn.
    + apply IH in H. destruct H as (Hb' & Hc' & Hm').
      rewrite Hb in Hb', Hm'. repeat split; [congruence|auto|auto].
    + by inversion H; subst.
Qed.

(** C4, as the code has it.  With a move generator that yields no null
    move and a picker that hands out legal moves only: no call of
    [_negaMax] or [_rootMax] and no run of [iterDeep] puts a move with the
    null-move flag into the cache; a root search over a position with legal
    moves that is not stopped commits a best move that is not the null
    move; and after a run from such a position whose depth-1 iteration was
    completed, [getBestMove] is not the null move.  At a root without legal
    moves [_rootMax] sets the best move to the null move and stores
    nothing. *)
Theorem null_move_not_persisted (iters fuel : nat) (board : Board)
    (depth alpha beta : Z) (s : Search) :
  cacheHoldsMoves (_tt s) →
  (∀ v s', negaMax fuel board depth alpha beta s = Some (v, s') →
           cacheHoldsMoves (_tt s'))
  ∧ (∀ s', rootMax fuel board depth s = Some s' →
           cacheHoldsMoves (_tt s')
           ∧ (getLegalMoves board ≠ [] → _stop s' = false →
              notNull (getBestMove s'))
           ∧ (getLegalMoves board = [] →
              getBestMove s' = nullMove ∧ _tt s' = _tt s))
  ∧ (∀ s', iterDeep iters fuel s = Some s' →
           cacheHoldsMoves (_tt s')
           ∧ (getLegalMoves (_board s) ≠ [] →
              1 ≤ _searchDepth s →
              (∃ s1, rootMax fuel (_board s) 1 s = Some s1 ∧ _stop s1 = false) →
              notNull (getBestMove s'))).
Proof.
  intros Hcache. split; [|split].
  - intros v s' H. apply negaMax_keepsCacheMoves in H. by apply H.
  - intros s' H.
    assert (getLegalMoves board = [] →
            getBestMove s' = nullMove ∧ _tt s' = _tt s) as Hnone.
    { intros Hnone. unfold rootMax, rootMaxBody in H. rewrite Hnone in H.
      by inversion H; subst. }
    apply rootMax_null_move in H. destruct H as [Hc Hb].
    split; [auto|]. split; [|done]. intros Hlegal Hstop.
    destruct (Hb Hlegal) as [Hbest _]. exact (Hbest Hstop).
  - intros s' H. unfold iterDeep in H.
    destruct (iterLoop iters fuel 1 s) as [sf|] eqn:Hloop; simpl in H; [|done].
    unfold getBestMove.
    assert (cacheHoldsMoves (_tt s') ∧ _bestMove s' = _bestMove sf) as [Hc' ->].
    { pose proof (iterLoop_null_move _ _ _ _ _ Hloop) as (_ & Hc & _).
      destruct (_logUci sf); inversion H; subst; simpl; auto. }
    split; [done|].
    intros Hlegal Hdepth (s1 & Hroot & Hstop).
    destruct iters as [|iters]; simpl in Hloop.
    { by rewrite (proj2 (Z.leb_le _ _) Hdepth) in Hloop. }
    rewrite (proj2 (Z.leb_le _ _) Hdepth) in Hloop.
    destruct (iterBody fuel 1 s) as [[goOn s2]|] eqn:Hbody; [|done].
    assert (notNull (_bestMove s2) ∧ _board s2 = _board s) as [Hs2 Hb2].
    { pose proof (iterBody_null_move _ _ _ _ _ Hbody) as (Hb & _ & _).
      split; [|done].
      unfold iterBody in Hbody. rewrite Hroot in Hbody. simpl in Hbody.
      rewrite Hstop in Hbody.
      apply rootMax_null_move in Hroot. destruct Hroot as [_ Hbest].
      destruct (Hbest Hlegal) as [Hbest1 _]. specialize (Hbest1 Hstop).
      destruct (_logUci s1); destruct (_ <=? _);
        inversion Hbody; subst; done. }
    destruct goOn.
    + apply iterLoop_null_move in Hloop. destruct Hloop as (_ & _ & Hm).
      apply Hm; [by rewrite Hb2|done].
    + by inversion Hloop; subst.
Qed.

End NullMove.

(** ** An abandoned iteration *)

Lemma sameCache_poll : PollLaws sameCache.
Proof.
  split; unfold sameCache.
  - done.
  - intros s1 s2 s3 H12 H23. congruence.
  - intros s. by destruct (stopOrCheckLimits_shape s) as (c & n & ->).
  - done.
Qed.






Lemma rootMaxLoop_cache (Q : TranspTable → Prop) rec board depth beta picks :
  (∀ b alpha s v s',
     Q (_tt s) → rec b (depth - 1) (- beta) alpha s = Some (v, s') →
     Q (_tt s')) →
  ∀ alpha bestMove s a bm s',
    Q (_tt s) →
    rootMaxLoop rec board depth beta picks alpha bestMove s = Some (a, bm, s') →
    Q (_tt s').
Proof.
  intros Hrec.
  induction picks as [|m rest IH]; intros alpha bestMove s a bm s' HQ H;
    simpl in H.
  - by inversion H; subst.
  - destruct (rec _ _ _ _ _) as [[r s1]|] eqn:Hr; simpl in H; [|done].
    apply Hrec in Hr; [|done].
    match type of H with context [stopOrCheckLimits ?x] =>
      pose proof (ql_poll _ sameCache_poll x) as Hp;
      destruct (stopOrCheckLimits x) as [lim s2] end.
    unfold sameCache in Hp. simpl in Hp. rewrite <- Hp in Hr.
    destruct lim; [by inversion H; subst|].
    destruct (alpha <? - r).
    + destruct (- r =? INF); [by inversion H; subst|]. by apply IH in H.
    + by apply IH in H.
Qed.

(** A root search that ends with the stop flag set, having started with it
    clear, leaves best move and best score as they were. *)
Lemma rootMax_stopped_best fuel board depth s s' :
  rootMax fuel board depth s = Some s' →
  _stop s = false → _stop s' = true →
  _bestMove s' = _bestMove s ∧ _bestScore s' = _bestScore s.
Proof.
  intros H Hrun Hstop. unfold rootMax, rootMaxBody in H.
  destruct (getLegalMoves board) as [|m0 ms].
  { inversion H; subst. simpl in Hstop. congruence. }
  destruct (rootMaxLoop _ _ _ _ _ _ _ _) as [[[a bm] s1]|] eqn:Hl;
    simpl in H; [|done].
  destruct (_stop s1) eqn:Hs1; simpl in H; inversion H; subst.
  2: { simpl in Hstop. congruence. }
  pose proof (rootMaxLoop_respects _ _ _ sameRun_laws
                (negaMax_sameRun fuel) _ _ _ _ _ _ _ _ _ _ Hl)
    as (_ & _ & _ & Hscore & Hmove & _).
  by split.
Qed.







(** ** The node cap *)

Lemma budgetKept_refl s : budgetKept s s.
Proof. by split. Qed.

Lemma budgetKept_trans s1 s2 s3 :
  budgetKept s1 s2 → budgetKept s2 s3 → budgetKept s1 s3.
Proof.
  intros [Hl12 H12] [Hl23 H23]. split; [congruence|].
  intros Hcap Hb. apply H23; [by rewrite Hl12|]. by apply H12.
Qed.

Lemma budgetKept_frame s s' :
  _limits s' = _limits s → _nodes s' = _nodes s → _stop s' = _stop s →
  _limitCheckCount s' = _limitCheckCount s → budgetKept s s'.
Proof.
  intros Hl Hn Hs Hc. split; [done|]. unfold nodeBudget.
  by rewrite Hl, Hn, Hs, Hc.
Qed.

(** The guard of a call: it sets the stop flag within the budget, or leaves
    room for one more node before the next poll. *)
Lemma poll_budget s :
  0 < l_nodes (_limits s) → nodeBudget s →
  _limits (stopOrCheckLimits s).2 = _limits s
  ∧ _nodes (stopOrCheckLimits s).2 = _nodes s
  ∧ if (stopOrCheckLimits s).1
    then nodeBudget (set_stop true (stopOrCheckLimits s).2)
    else _stop (stopOrCheckLimits s).2 = false
         ∧ 1 ≤ _limitCheckCount (stopOrCheckLimits s).2 ≤ 4096
         ∧ _nodes s + _limitCheckCount (stopOrCheckLimits s).2
           ≤ l_nodes (_limits s) + 4095.
Proof.
  intros Hcap (Hc & Hn & Hrun).
  unfold stopOrCheckLimits, checkLimits, nodeBudget.
  destruct (_stop s) eqn:Hstop; simpl.
  { repeat split; simpl; intros; try done; lia. }
  specialize (Hrun eq_refl).
  destruct (0 <? _limitCheckCount s - 1) eqn:Hpoll; simpl.
  { repeat split; simpl; intros; try done; lia. }
  destruct (negb (l_nodes (_limits s) =? 0)
            && (l_nodes (_limits s) <=? _nodes s)) eqn:Hnodes; simpl.
  { repeat split; simpl; intros; try done; lia. }
  assert (_nodes s < l_nodes (_limits s)) as Hlt.
  { apply andb_false_iff in Hnodes. destruct Hnodes as [Hz|Hle]; [|lia].
    apply negb_false_iff in Hz. lia. }
  destruct (_timeAllocated s <=? elapsedMs (clockReads s)); simpl;
    repeat split; simpl; intros; try done; lia.
Qed.

Lemma poll_limits s : _limits (stopOrCheckLimits s).2 = _limits s.
Proof. by destruct (stopOrCheckLimits_shape s) as (c & n & ->). Qed.

Lemma qSearchLoop_budget rec board beta picks :
  qRespects budgetKept rec →
  ∀ alpha s v s',
    qSearchLoop rec board beta picks alpha s = Some (v, s') → budgetKept s s'.
Proof.
  intros Hrec.
  induction picks as [|m rest IH]; intros alpha s v s' H; simpl in H.
  - inversion H; subst. apply budgetKept_refl.
  - destruct (rec _ _ _ s) as [[r s1]|] eqn:Hr; simpl in H; [|done].
    apply Hrec in Hr.
    destruct (beta <=? - r); [by inversion H; subst|].
    apply IH in H. by eapply budgetKept_trans.
Qed.

Lemma qSearchBody_budget rec :
  qRespects budgetKept rec → qRespects budgetKept (qSearchBody rec).
Proof.
  intros Hrec board alpha beta s v s' H. unfold qSearchBody in H.
  pose proof (poll_limits s) as Hl. pose proof (poll_budget s) as Hp.
  destruct (stopOrCheckLimits s) as [lim s1]; simpl in Hl, Hp.
  destruct lim.
  { inversion H; subst. split; [done|]. intros Hcap Hb. by apply Hp. }
  assert (budgetKept s s1) as Hs1.
  { split; [done|]. intros Hcap Hb.
    destruct (Hp Hcap Hb) as (_ & Hn & Hs & Hc & Hsum).
    unfold nodeBudget. rewrite Hl, Hn. repeat split; try lia. }
  destruct (getLegalMoves board) as [|m0 ms].
  { destruct (colorIsInCheck _ _); by inversion H; subst. }
  assert (budgetKept s (set_nodes (_nodes s1 + 1) s1)) as Hs2.
  { split; [done|]. intros Hcap Hb.
    destruct (Hp Hcap Hb) as (_ & Hn & Hs & Hc & Hsum).
    unfold nodeBudget. simpl. rewrite Hl, Hn. repeat split; try lia. }
  destruct (captureOrder (m0 :: ms)) as [|c cs]; [by inversion H; subst|].
  destruct (beta <=? _); [by inversion H; subst|].
  apply (qSearchLoop_budget _ _ _ _ Hrec) in H.
  by eapply budgetKept_trans.
Qed.

Lemma qSearch_budget fuel : qRespects budgetKept (qSearch fuel).
Proof.
  induction fuel as [|fuel IH]; simpl.
  - by intros ? ? ? ? ? ? ?.
  - by apply qSearchBody_budget.
Qed.

Lemma recordCutoff_budget board depth score move s :
  budgetKept s (recordCutoff board depth score move s).
Proof.
  apply budgetKept_frame; unfold recordCutoff; by destruct (negb _).
Qed.

Lemma negaMaxLoop_budget rec board depth beta picks :
  dRespects budgetKept rec →
  ∀ alpha bestMove s ex,
    negaMaxLoop rec board depth beta picks alpha bestMove s = Some ex →
    match ex with
    | LoopReturn _ s' => budgetKept s s'
    | LoopDone _ _ s' => budgetKept s s'
    end.
Proof.
  intros Hrec.
  induction picks as [|m rest IH]; intros alpha bestMove s ex H; simpl in H.
  - inversion H; subst. apply budgetKept_refl.
  - destruct (rec _ _ _ _ _) as [[r s1]|] eqn:Hr; simpl in H; [|done].
    apply Hrec in Hr.
    assert (budgetKept s (set_orderingInfo (deincrementPly (_orderingInfo s1)) s1))
      as Hs1.
    { eapply budgetKept_trans; [by apply budgetKept_frame|].
      eapply budgetKept_trans; [exact Hr|]. by apply budgetKept_frame. }
    destruct (beta <=? - r).
    + inversion H; subst. eapply budgetKept_trans; [done|].
      apply recordCutoff_budget.
    + destruct (alpha <? - r); apply IH in H;
        destruct ex; by eapply budgetKept_trans.
Qed.

Lemma negaMaxBody_budget rec qrec :
  dRespects budgetKept rec → qRespects budgetKept qrec →
  dRespects budgetKept (negaMaxBody rec qrec).
Proof.
  intros Hrec Hqrec board depth alpha beta s v s' H. unfold negaMaxBody in H.
  pose proof (poll_limits s) as Hl. pose proof (poll_budget s) as Hp.
  destruct (stopOrCheckLimits s) as [lim s1]; simpl in Hl, Hp.
  destruct lim.
  { inversion H; subst. split; [done|]. intros Hcap Hb. by apply Hp. }
  assert (budgetKept s s1) as Hs1.
  { split; [done|]. intros Hcap Hb.
    destruct (Hp Hcap Hb) as (_ & Hn & Hs & Hc & Hsum).
    unfold nodeBudget. rewrite Hl, Hn. repeat split; try lia. }
  destruct (ttProbe _ _ _ _) as [r|a b]; [by inversion H; subst|].
  unfold negaMaxSearch in H.
  destruct (getLegalMoves board) as [|m0 ms]; [by inversion H; subst|].
  destruct (depth =? 0).
  { apply Hqrec in H. by eapply budgetKept_trans. }
  destruct (negaMaxLoop _ _ _ _ _ _ _ _) as [ex|] eqn:Hloop; simpl in H; [|done].
  apply (negaMaxLoop_budget _ _ _ _ _ Hrec) in Hloop.
  destruct ex; inversion H; subst.
  - by eapply budgetKept_trans.
  - eapply budgetKept_trans; [done|].
    eapply budgetKept_trans; [done|]. by apply budgetKept_frame.
Qed.

Lemma negaMax_budget fuel : dRespects budgetKept (negaMax fuel).
Proof.
  induction fuel as [|fuel IH]; simpl.
  - by intros ? ? ? ? ? ? ? ?.
  - apply negaMaxBody_budget; [done|apply qSearch_budget].
Qed.

Lemma rootMaxLoop_budget rec board depth beta picks :
  dRespects budgetKept rec →
  ∀ alpha bestMove s a bm s',
    rootMaxLoop rec board depth beta picks alpha bestMove s = Some (a, bm, s') →
    budgetKept s s'.
Proof.
  intros Hrec.
  induction picks as [|m rest IH]; intros alpha bestMove s a bm s' H; simpl in H.
  - inversion H; subst. apply budgetKept_refl.
  - destruct (rec _ _ _ _ _) as [[r s1]|] eqn:Hr; simpl in H; [|done].
    apply Hrec in Hr.
    assert (budgetKept s (set_orderingInfo (deincrementPly (_orderingInfo s1)) s1))
      as Hs1.
    { eapply budgetKept_trans; [by apply budgetKept_frame|].
      eapply budgetKept_trans; [exact Hr|]. by apply budgetKept_frame. }
    match type of H with context [stopOrCheckLimits ?x] =>
      pose proof (poll_limits x) as Hl; pose proof (poll_budget x) as Hp;
      destruct (stopOrCheckLimits x) as [lim s2] end.
    simpl in Hl, Hp.
    assert (budgetKept s (if lim then set_stop true s2 else s2)) as Hs2.
    { eapply budgetKept_trans; [exact Hs1|]. split; [by destruct lim|].
      simpl. intros Hcap Hb. destruct lim; [by apply Hp|].
      destruct (Hp Hcap Hb) as (_ & Hn & Hs & Hc & Hsum).
      unfold nodeBudget. rewrite Hl, Hn. simpl. repeat split; try lia. }
    destruct lim; [by inversion H; subst|].
    destruct (alpha <? - r).
    + destruct (- r =? INF); [by inversion H; subst|].
      apply IH in H. by eapply budgetKept_trans.
    + apply IH in H. by eapply budgetKept_trans.
Qed.

Lemma rootMax_budget fuel board depth s s' :
  rootMax fuel board depth s = Some s' → budgetKept s s'.
Proof.
  intros H. unfold rootMax, rootMaxBody in H.
  assert (budgetKept s (set_nodes 0 s)) as Hreset.
  { split; [done|]. unfold nodeBudget. simpl. intros Hcap (Hc & Hn & Hrun).
    repeat split; lia. }
  destruct (getLegalMoves board) as [|m0 ms].
  { inversion H; subst. eapply budgetKept_trans; [done|].
    by apply budgetKept_frame. }
  destruct (rootMaxLoop _ _ _ _ _ _ _ _) as [[[a bm] s1]|] eqn:Hloop;
    simpl in H; [|done].
  apply (rootMaxLoop_budget _ _ _ _ _ (negaMax_budget fuel)) in Hloop.
  eapply budgetKept_trans; [done|]. eapply budgetKept_trans; [done|].
  destruct (negb (_stop s1)); inversion H; subst;
    [by apply budgetKept_frame|apply budgetKept_refl].
Qed.

Lemma iterBody_budget fuel currDepth s goOn s' :
  iterBody fuel currDepth s = Some (goOn, s') → budgetKept s s'.
Proof.
  intros H. unfold iterBody in H.
  destruct (rootMax fuel (_board s) currDepth s) as [s1|] eqn:Hroot;
    simpl in H; [|done].
  apply rootMax_budget in Hroot. eapply budgetKept_trans; [done|].
  destruct (_stop s1); [inversion H; subst; by apply budgetKept_frame|].
  destruct (_logUci s1); destruct (_ <=? _); inversion H; subst;
    by apply budgetKept_frame.
Qed.

Lemma iterLoop_budget iters fuel :
  ∀ currDepth s s',
    iterLoop iters fuel currDepth s = Some s' → budgetKept s s'.
Proof.
  induction iters as [|iters IH]; intros currDepth s s' H; simpl in H.
  - destruct (currDepth <=? _searchDepth s); [done|].
    inversion H; subst. apply budgetKept_refl.
  - destruct (currDepth <=? _searchDepth s);
      [|inversion H; subst; apply budgetKept_refl].
    destruct (iterBody fuel currDepth s) as [[goOn s1]|] eqn:Hbody; [|done].
    apply iterBody_budget in Hbody.
    destruct goOn; [|by inversion H; subst].
    apply IH in H. by eapply budgetKept_trans.
Qed.

(** C8, as the code has it.  With a positive node cap: a new search is
    within the node budget; every call of [_qSearch], [_negaMax] and
    [_rootMax] and every run of [iterDeep] that starts within the budget
    ends within it, so that the node counter (which counts the current
    iteration) is never above the cap by more than one polling interval of
    4096; a limit check that polls (the counter of checks at 1 or below)
    while the node counter is at or above the cap sets the stop flag; and a
    root search that ends with the stop flag set commits no best move or
    score. *)
Theorem node_cap_overshoot (iters fuel : nat) (board : Board)
    (depth alpha beta : Z) (s : Search) :
  0 < l_nodes (_limits s) →
  (∀ logUci, nodeBudget (newSearch board (_limits s) logUci))
  ∧ (nodeBudget s →
     (∀ v s', qSearch fuel board alpha beta s = Some (v, s') →
              nodeBudget s' ∧ _nodes s' ≤ l_nodes (_limits s) + 4096)
     ∧ (∀ v s', negaMax fuel board depth alpha beta s = Some (v, s') →
                nodeBudget s' ∧ _nodes s' ≤ l_nodes (_limits s) + 4096)
     ∧ (∀ s', rootMax fuel board depth s = Some s' →
              nodeBudget s' ∧ _nodes s' ≤ l_nodes (_limits s) + 4096)
     ∧ (∀ s', iterDeep iters fuel s = Some s' →
              nodeBudget s' ∧ _nodes s' ≤ l_nodes (_limits s) + 4096))
  ∧ (_stop s = false → _limitCheckCount s ≤ 1 →
     l_nodes (_limits s) ≤ _nodes s →
     (stopOrCheckLimits s).1 = true)
  ∧ (_stop s = false →
     ∀ s', rootMax fuel board depth s = Some s' → _stop s' = true →
           _bestMove s' = _bestMove s ∧ _bestScore s' = _bestScore s).
Proof.
  intros Hcap.
  assert (∀ s', budgetKept s s' → nodeBudget s →
                nodeBudget s' ∧ _nodes s' ≤ l_nodes (_limits s) + 4096) as Hkept.
  { intros s' [Hl Hb] Hs. specialize (Hb Hcap Hs). split; [done|].
    destruct Hb as (_ & Hn & _). by rewrite Hl in Hn. }
  split; [|split; [|split]].
  - intros logUci. unfold nodeBudget, newSearch. simpl. repeat split; lia.
  - intros Hs. split; [|split; [|split]].
    + intros v s' H. apply Hkept; [|done]. by eapply qSearch_budget.
    + intros v s' H. apply Hkept; [|done]. by eapply negaMax_budget.
    + intros s' H. apply Hkept; [|done]. by eapply rootMax_budget.
    + intros s' H. unfold iterDeep in H.
      destruct (iterLoop iters fuel 1 s) as [sf|] eqn:Hloop; simpl in H; [|done].
      apply iterLoop_budget in Hloop. apply Hkept in Hloop; [|done].
      destruct (_logUci sf); inversion H; subst; apply Hloop.
  - intros Hstop Hc Hn. unfold stopOrCheckLimits, checkLimits.
    rewrite Hstop. simpl.
    rewrite (proj2 (Z.ltb_ge _ _)) by lia. simpl.
    rewrite (proj2 (Z.leb_le _ _) Hn).
    by rewrite (proj2 (Z.eqb_neq _ _)) by lia.
  - intros Hstop s' Hroot Hstop'. by eapply rootMax_stopped_best.
Qed.

End Properties.

(** * Further properties of the search *)

Section Further.
Context `{E : Engine}.

(** ** The throttle of the limit checks *)

Lemma checkLimits_silent (s : Search) :
  1 < _limitCheckCount s →
  checkLimits s = (false, set_limitCheckCount (_limitCheckCount s - 1) s).
Proof.
  intros Hc. unfold checkLimits. simpl.
  by rewrite (proj2 (Z.ltb_lt _ _)) by lia.
Qed.

Lemma checksInARow_silent (n : nat) :
  ∀ s, Z.of_nat n < _limitCheckCount s →
       checksInARow n s
       = set_limitCheckCount (_limitCheckCount s - Z.of_nat n) s.
Proof.
  induction n as [|n IH]; intros s Hc.
  - simpl. rewrite Z.sub_0_r. by destruct s.
  - unfold checksInARow in *. simpl. rewrite IH by lia.
    rewrite checkLimits_silent by (simpl; lia). simpl.
    unfold set_limitCheckCount. simpl. f_equal. lia.
Qed.

(** X1. After a limit check that polls, the counter of checks is 4096 and
    one clock reading has been taken; each of the next 4095 checks returns
    false, reads no clock and changes nothing but the counter; the check
    after those polls again. *)
Theorem poll_every_4096_checks (s : Search) :
  _limitCheckCount s ≤ 1 →
  let polled := (checkLimits s).2 in
  _limitCheckCount polled = 4096
  ∧ clockReads polled = S (clockReads s)
  ∧ (∀ n, (n < 4096)%nat →
          checksInARow n polled
          = set_limitCheckCount (4096 - Z.of_nat n) polled)
  ∧ (∀ n, (n < 4095)%nat → (checkLimits (checksInARow n polled)).1 = false)
  ∧ clockReads (checkLimits (checksInARow 4095 polled)).2
    = S (S (clockReads s))
  ∧ _limitCheckCount (checkLimits (checksInARow 4095 polled)).2 = 4096.
Proof.
  intros Hc polled.
  assert (_limitCheckCount polled = 4096 ∧ clockReads polled = S (clockReads s))
    as [Hcount Hclock].
  { subst polled. unfold checkLimits. simpl.
    rewrite (proj2 (Z.ltb_ge _ _)) by lia.
    by repeat case_match. }
  assert (∀ n, (n < 4096)%nat →
               checksInARow n polled
               = set_limitCheckCount (4096 - Z.of_nat n) polled) as Hrow.
  { intros n Hn. rewrite checksInARow_silent by lia. by rewrite Hcount. }
  split; [done|]. split; [done|]. split; [done|]. split; [|split].
  - intros n Hn. rewrite Hrow by lia.
    rewrite checkLimits_silent by (simpl; lia). done.
  - rewrite Hrow by lia. unfold checkLimits. simpl.
    rewrite Hclock. by repeat case_match.
  - rewrite Hrow by lia. unfold checkLimits. simpl. by repeat case_match.
Qed.

(** ** The stop flag *)

Lemma stopKept_poll : PollLaws stopKept.
Proof.
  split; unfold stopKept.
  - done.
  - auto.
  - intros s. by rewrite stopOrCheckLimits_stop.
  - done.
Qed.

Lemma stopKept_laws : NegaMaxLaws (λ _, True) stopKept.
Proof.
  split; [apply stopKept_poll|..]; unfold stopKept.
  - intros s s1 H Hs. simpl in *. auto.
  - intros board depth score move s _. unfold recordCutoff.
    by destruct (negb _).
  - done.
Qed.

Lemma stopKept_count : CountLaw stopKept.
Proof. intros s H. exact H. Qed.

Lemma stopped_poll (s : Search) :
  _stop s = true → stopOrCheckLimits s = (true, s).
Proof. intros H. unfold stopOrCheckLimits. by rewrite H. Qed.

Lemma set_stop_same (s : Search) : _stop s = true → set_stop true s = s.
Proof. intros H. destruct s. simpl in *. by subst. Qed.

Lemma rootMax_stopKept fuel board depth s s' :
  rootMax fuel board depth s = Some s' → stopKept s s'.
Proof.
  intros H. unfold rootMax, rootMaxBody in H. unfold stopKept.
  destruct (getLegalMoves board) as [|m0 ms]; [by inversion H; subst|].
  destruct (rootMaxLoop _ _ _ _ _ _ _ _) as [[[a bm] s1]|] eqn:Hloop;
    simpl in H; [|done].
  apply (rootMaxLoop_respects _ _ _ stopKept_laws) in Hloop.
  2: apply (negaMax_respects _ _ stopKept_laws stopKept_count anyMove_picked).
  unfold stopKept in *. simpl in Hloop. intros Hs. specialize (Hloop Hs).
  rewrite Hloop in H. simpl in H. by inversion H; subst.
Qed.

Lemma iterBody_stopKept fuel currDepth s goOn s' :
  iterBody fuel currDepth s = Some (goOn, s') → stopKept s s'.
Proof.
  intros H. unfold iterBody in H.
  destruct (rootMax fuel (_board s) currDepth s) as [s1|] eqn:Hroot;
    simpl in H; [|done].
  apply rootMax_stopKept in Hroot. intros Hs. specialize (Hroot Hs).
  rewrite Hroot in H. by inversion H; subst.
Qed.

Lemma iterLoop_stopKept iters fuel :
  ∀ currDepth s s', iterLoop iters fuel currDepth s = Some s' → stopKept s s'.
Proof.
  unfold stopKept.
  induction iters as [|iters IH]; intros currDepth s s' H; simpl in H.
  - destruct (currDepth <=? _searchDepth s); [done|]. by inversion H; subst.
  - destruct (currDepth <=? _searchDepth s); [|by inversion H; subst].
    destruct (iterBody fuel currDepth s) as [[goOn s1]|] eqn:Hbody; [|done].
    apply iterBody_stopKept in Hbody. unfold stopKept in Hbody.
    destruct goOn; [|by inversion H; subst].
    intros Hs. apply (IH _ _ _ H). by apply Hbody.
Qed.

(** X2. The search never clears the stop flag: if it is set before a call
    of [_negaMax], [_qSearch], [_rootMax] or a run of [iterDeep], it is set
    after; and a call of [_negaMax] or [_qSearch] that finds it set returns
    0 at once and leaves the state as it is. *)
Theorem stop_is_final (iters fuel : nat) (board : Board)
    (depth alpha beta : Z) (s : Search) :
  _stop s = true →
  (∀ v s', negaMax fuel board depth alpha beta s = Some (v, s') →
           _stop s' = true)
  ∧ (∀ v s', qSearch fuel board alpha beta s = Some (v, s') → _stop s' = true)
  ∧ (∀ s', rootMax fuel board depth s = Some s' → _stop s' = true)
  ∧ (∀ s', iterDeep iters fuel s = Some s' → _stop s' = true)
  ∧ negaMax (S fuel) board depth alpha beta s = Some (0, s)
  ∧ qSearch (S fuel) board alpha beta s = Some (0, s).
Proof.
  intros Hs. repeat split.
  - intros v s' H.
    apply (negaMax_respects _ _ stopKept_laws stopKept_count anyMove_picked)
      in H. by apply H.
  - intros v s' H.
    apply (qSearch_respects _ stopKept_poll stopKept_count) in H. by apply H.
  - intros s' H. apply rootMax_stopKept in H. by apply H.
  - intros s' H. unfold iterDeep in H.
    destruct (iterLoop iters fuel 1 s) as [sf|] eqn:Hloop; simpl in H; [|done].
    apply iterLoop_stopKept in Hloop. specialize (Hloop Hs).
    destruct (_logUci sf); by inversion H; subst.
  - simpl. unfold negaMaxBody. rewrite stopped_poll by done.
    by rewrite set_stop_same.
  - simpl. unfold qSearchBody. rewrite stopped_poll by done.
    by rewrite set_stop_same.
Qed.

(** ** What a search call leaves alone *)

(** X3. No call of [_negaMax] or [_qSearch] prints a line, commits a best
    move or score, or changes the limits, the root position, the iteration
    ceiling or the time budget; a call of [_rootMax] prints nothing and
    changes none of the configuration either. *)
Theorem search_calls_commit_nothing (fuel : nat) (board : Board)
    (depth alpha beta : Z) (s : Search) :
  (∀ v s', negaMax fuel board depth alpha beta s = Some (v, s') →
           _bestMove s' = _bestMove s ∧ _bestScore s' = _bestScore s
           ∧ stdout s' = stdout s ∧ _limits s' = _limits s
           ∧ _board s' = _board s ∧ _searchDepth s' = _searchDepth s
           ∧ _timeAllocated s' = _timeAllocated s)
  ∧ (∀ v s', qSearch fuel board alpha beta s = Some (v, s') →
             _bestMove s' = _bestMove s ∧ _bestScore s' = _bestScore s
             ∧ stdout s' = stdout s ∧ _limits s' = _limits s
             ∧ _board s' = _board s ∧ _searchDepth s' = _searchDepth s
             ∧ _timeAllocated s' = _timeAllocated s)
  ∧ (∀ s', rootMax fuel board depth s = Some s' →
           stdout s' = stdout s ∧ _limits s' = _limits s
           ∧ _board s' = _board s ∧ _logUci s' = _logUci s
           ∧ _searchDepth s' = _searchDepth s
           ∧ _timeAllocated s' = _timeAllocated s).
Proof.
  split; [|split].
  - intros v s' H. apply negaMax_sameRun in H.
    unfold sameRun in H. destruct_and!. by repeat split.
  - intros v s' H. apply qSearch_sameRun in H.
    unfold sameRun in H. destruct_and!. by repeat split.
  - intros s' H. apply rootMax_sameConfig in H.
    unfold sameConfig in H. destruct_and!. by repeat split.
Qed.

(** ** Quiescence and the tables *)

Lemma poll_withTables t o s :
  stopOrCheckLimits (withTables t o s)
  = ((stopOrCheckLimits s).1, withTables t o (stopOrCheckLimits s).2).
Proof.
  unfold stopOrCheckLimits, checkLimits. simpl.
  destruct (_stop s); [done|]. simpl.
  repeat case_match; done.
Qed.

Lemma qSearchLoop_withTables t o (rec : SearchFn) board beta picks :
  (∀ b alpha beta s,
     rec b alpha beta (withTables t o s)
     = prod_map id (withTables t o) <$> rec b alpha beta s) →
  ∀ alpha s,
    qSearchLoop rec board beta picks alpha (withTables t o s)
    = prod_map id (withTables t o) <$> qSearchLoop rec board beta picks alpha s.
Proof.
  intros Hrec. induction picks as [|m rest IH]; intros alpha s; simpl; [done|].
  rewrite Hrec. destruct (rec _ _ _ s) as [[r s1]|]; simpl; [|done].
  destruct (beta <=? - r); [done|]. apply IH.
Qed.

(** X4. [_qSearch] neither reads nor writes the cache or the ordering
    tables: run with other tables it returns the same value and the same
    state but for the tables, which come back as they went in. *)
Theorem qSearch_ignores_tables (fuel : nat) (t : TranspTable)
    (o : OrderingInfo) (board : Board) (alpha beta : Z) (s : Search) :
  qSearch fuel board alpha beta (withTables t o s)
  = prod_map id (withTables t o) <$> qSearch fuel board alpha beta s.
Proof.
  revert board alpha beta s.
  induction fuel as [|fuel IH]; intros board alpha beta s; simpl; [done|].
  unfold qSearchBody. rewrite poll_withTables.
  destruct (stopOrCheckLimits s) as [lim s1]; simpl.
  destruct lim; [done|].
  destruct (getLegalMoves board) as [|m0 ms].
  { by destruct (colorIsInCheck _ _). }
  destruct (captureOrder (m0 :: ms)) as [|c cs]; [done|].
  destruct (beta <=? _); [done|].
  change (set_nodes (_nodes s1 + 1)
            (set_evals (S (evals s1)) (withTables t o s1)))
    with (withTables t o
            (set_nodes (_nodes s1 + 1) (set_evals (S (evals s1)) s1))).
  apply (qSearchLoop_withTables t o (qSearch fuel) board beta (c :: cs) IH).
Qed.

(** ** Runs that end before an iteration is completed *)

Lemma ply_there_and_back (o : OrderingInfo) :
  deincrementPly (incrementPly o) = o.
Proof.
  destruct o as [p k h]. unfold deincrementPly, incrementPly. simpl.
  f_equal. lia.
Qed.

(** A root search whose first limit check trips searches nothing. *)
Lemma rootMax_cancelled fuel board depth s :
  getLegalMoves board ≠ [] →
  generalOrder (_orderingInfo s) (_tt s) board (getLegalMoves board) ≠ [] →
  (stopOrCheckLimits (set_nodes 0 s)).1 = true →
  rootMax (S fuel) board depth s
  = Some (set_stop true (stopOrCheckLimits (set_nodes 0 s)).2).
Proof.
  intros Hlegal Hpicks Htrip. unfold rootMax, rootMaxBody.
  destruct (getLegalMoves board) as [|m0 ms] eqn:Hl; [done|]. simpl.
  destruct (generalOrder _ _ _ _) as [|m rest]; [done|]. simpl.
  unfold negaMaxBody.
  change (set_orderingInfo (incrementPly (_orderingInfo s)) (set_nodes 0 s))
    with (withTables (_tt s) (incrementPly (_orderingInfo s)) (set_nodes 0 s)).
  rewrite poll_withTables, Htrip.
  assert (_tt (stopOrCheckLimits (set_nodes 0 s)).2 = _tt s
          ∧ _orderingInfo (stopOrCheckLimits (set_nodes 0 s)).2
            = _orderingInfo s) as [Htt Hoi].
  { by destruct (stopOrCheckLimits_shape (set_nodes 0 s)) as (c & n & ->). }
  set (p := (stopOrCheckLimits (set_nodes 0 s)).2) in *.
  simpl. rewrite ply_there_and_back.
  unfold stopOrCheckLimits. simpl.
  f_equal. destruct p. simpl in *. by subst.
Qed.

Lemma iterDeep_cancelled iters fuel s :
  getLegalMoves (_board s) ≠ [] →
  generalOrder (_orderingInfo s) (_tt s) (_board s)
    (getLegalMoves (_board s)) ≠ [] →
  1 ≤ _searchDepth s →
  (stopOrCheckLimits (set_nodes 0 s)).1 = true →
  ∃ s', iterDeep (S iters) (S fuel) s = Some s'
        ∧ _stop s' = true
        ∧ getBestMove s' = getBestMove s ∧ getBestScore s' = getBestScore s
        ∧ _tt s' = _tt s
        ∧ stdout s' = stdout s
                      ++ (if _logUci s then [BestMoveLine (getBestMove s)]
                          else []).
Proof.
  intros Hlegal Hpicks Hdepth Htrip.
  unfold iterDeep. simpl. rewrite (proj2 (Z.leb_le _ _) Hdepth).
  unfold iterBody. rewrite (rootMax_cancelled fuel _ 1 s) by done. simpl.
  destruct (stopOrCheckLimits_shape (set_nodes 0 s)) as (c & n & ->). simpl.
  destruct (_logUci s); eexists; (split; [reflexivity|]); simpl;
    repeat split; try done.
  by rewrite app_nil_r.
Qed.

(** X5. A new search that was asked to stop before it ran, or whose time
    budget is already used up at the first reading of the clock, ends its
    run without a completed iteration: at a root with legal moves it has
    searched nothing, its best move is the null move with score 0, the
    cache is empty, and the null move is what it prints. *)
Theorem cancelled_run_reports_null_move (iters fuel : nat) (board : Board)
    (limits : Limits) (logUci requested : bool) :
  let s0 := newSearch board limits logUci in
  let s := if requested then stop s0 else s0 in
  getLegalMoves board ≠ [] →
  generalOrder (mkOrdering 0 ∅ ∅) ∅ board (getLegalMoves board) ≠ [] →
  1 ≤ _searchDepth s0 →
  requested = true ∨ _timeAllocated s0 ≤ elapsedMs 0 →
  ∃ s', iterDeep (S iters) (S fuel) s = Some s'
        ∧ _stop s' = true
        ∧ getBestMove s' = nullMove ∧ getBestScore s' = 0
        ∧ _tt s' = ∅
        ∧ stdout s' = if logUci then [BestMoveLine nullMove] else [].
Proof.
  intros s0 s Hlegal Hpicks Hdepth Hwhy.
  assert ((stopOrCheckLimits (set_nodes 0 s)).1 = true) as Htrip.
  { subst s. destruct requested; [done|].
    destruct Hwhy as [?|Htime]; [done|].
    subst s0. unfold stopOrCheckLimits, checkLimits. simpl in *.
    destruct (negb _ && _); [done|]. simpl.
    by rewrite (proj2 (Z.leb_le _ _) Htime). }
  destruct (iterDeep_cancelled iters fuel s) as (s' & Hrun & Hstop & Hm & Hsc & Htt & Hout).
  - subst s. by destruct requested.
  - subst s. by destruct requested.
  - subst s. by destruct requested.
  - done.
  - exists s'. split; [done|]. split; [done|].
    subst s. destruct requested; simpl in *;
      rewrite Hm, Hsc, Htt, Hout; by destruct logUci.
Qed.

(** X6. With a negative depth limit (and no infinite flag) the loop of
    [iterDeep] is not entered: nothing is searched, whatever the position,
    and the run prints the null move. *)
Theorem negative_depth_searches_nothing (iters fuel : nat) (board : Board)
    (limits : Limits) (logUci : bool) :
  l_infinite limits = false →
  l_depth limits < 0 →
  let s0 := newSearch board limits logUci in
  iterDeep iters fuel s0
  = Some (if logUci then set_stdout [BestMoveLine nullMove] s0 else s0).
Proof.
  intros Hinf Hdepth s0.
  assert (_searchDepth s0 = l_depth limits) as Hsd.
  { subst s0. simpl. unfold resolveLimits. rewrite Hinf.
    by rewrite (proj2 (Z.eqb_neq _ _)) by lia. }
  unfold iterDeep.
  assert (iterLoop iters fuel 1 s0 = Some s0) as ->.
  { destruct iters; cbn [iterLoop]; rewrite Hsd;
      by rewrite (proj2 (Z.leb_gt _ _)) by lia. }
  simpl. by destruct logUci.
Qed.

(** ** What a run prints *)

Lemma iterBody_output fuel currDepth s goOn s' :
  iterBody fuel currDepth s = Some (goOn, s') →
  _logUci s' = _logUci s ∧ _searchDepth s' = _searchDepth s
  ∧ ∃ new, stdout s' = stdout s ++ new
           ∧ lineDepth <$> new
             = (if _logUci s && negb (_stop s') then [Some currDepth] else [])
           ∧ (goOn = true → _stop s' = false).
Proof.
  intros H. unfold iterBody in H.
  destruct (rootMax fuel (_board s) currDepth s) as [s1|] eqn:Hroot;
    simpl in H; [|done].
  apply rootMax_sameConfig in Hroot.
  destruct Hroot as (_ & _ & Hlog & Hd & _ & Hout).
  destruct (_stop s1) eqn:Hstop.
  { inversion H; subst. simpl. rewrite Hstop, andb_false_r.
    repeat split; try done. exists []. by rewrite app_nil_r. }
  rewrite Hlog in H. destruct (_logUci s) eqn:HlogUci.
  - unfold logUciInfo in H. simpl in H.
    destruct (_ <=? _); inversion H; subst; simpl; rewrite ?HlogUci, Hstop, Hout;
      repeat split; try done; by eexists [_].
  - simpl in H.
    destruct (_ <=? _); inversion H; subst; simpl; rewrite ?HlogUci, Hstop, Hout;
      repeat split; try done; exists []; by rewrite app_nil_r.
Qed.

Lemma iterLoop_output iters fuel :
  ∀ currDepth s s',
    iterLoop iters fuel currDepth s = Some s' →
    _logUci s' = _logUci s
    ∧ ∃ new (n : nat),
        stdout s' = stdout s ++ new
        ∧ lineDepth <$> new = Some <$> seqZ currDepth (Z.of_nat n)
        ∧ (_logUci s = false → n = 0%nat)
        ∧ (n = 0%nat ∨ currDepth + Z.of_nat n ≤ _searchDepth s + 1).
Proof.
  induction iters as [|iters IH]; intros currDepth s s' H; simpl in H.
  - destruct (currDepth <=? _searchDepth s); [done|]. inversion H; subst.
    split; [done|]. exists [], 0%nat. rewrite app_nil_r. by repeat split; auto.
  - destruct (currDepth <=? _searchDepth s) eqn:Hle.
    2: { inversion H; subst. split; [done|]. exists [], 0%nat.
         rewrite app_nil_r. by repeat split; auto. }
    apply Z.leb_le in Hle.
    destruct (iterBody fuel currDepth s) as [[goOn s1]|] eqn:Hbody; [|done].
    apply iterBody_output in Hbody.
    destruct Hbody as (Hlog & Hd & new1 & Hout1 & Hdepth1 & Hgo).
    assert (∃ n1 : nat, lineDepth <$> new1 = Some <$> seqZ currDepth (Z.of_nat n1)
                        ∧ (n1 ≤ 1)%nat ∧ (_logUci s = false → n1 = 0%nat)
                        ∧ (goOn = true → _logUci s = true → n1 = 1%nat))
      as (n1 & Hn1 & Hle1 & Hoff1 & Hon1).
    { destruct (_logUci s && negb (_stop s1)) eqn:Hb.
      - exists 1%nat. apply andb_true_iff in Hb. destruct Hb as [Hb1 Hb2].
        rewrite Hdepth1. split; [done|]. split; [lia|].
        split; [congruence|done].
      - exists 0%nat. rewrite Hdepth1. split; [done|]. split; [lia|].
        split; [done|].
        intros Hg Hl. rewrite Hl, (Hgo Hg) in Hb. done. }
    destruct goOn.
    + apply IH in H. destruct H as (Hlog' & new2 & n2 & Hout2 & Hdepth2 & Hoff2 & Hb2).
      split; [congruence|].
      destruct (_logUci s) eqn:HlogUci.
      * rewrite (Hon1 eq_refl eq_refl) in Hn1.
        exists (new1 ++ new2), (S n2). rewrite Hout2, Hout1, <- app_assoc.
        split; [done|]. rewrite fmap_app, Hn1, Hdepth2.
        split; [|split; [done|right; lia]].
        rewrite (seqZ_cons currDepth (Z.of_nat (S n2))) by lia.
        replace (Z.pred (Z.of_nat (S n2))) with (Z.of_nat n2) by lia.
        replace (Z.succ currDepth) with (currDepth + 1) by lia.
        done.
      * rewrite (Hoff1 eq_refl) in Hn1. rewrite Hlog in Hoff2.
        rewrite (Hoff2 eq_refl) in *.
        exists (new1 ++ new2), 0%nat. rewrite Hout2, Hout1, <- app_assoc.
        split; [done|]. rewrite fmap_app, Hn1, Hdepth2. by repeat split; auto.
    + inversion H; subst. split; [done|].
      exists new1, n1. repeat split; try done. right. lia.
Qed.

(** X7. A run of [iterDeep] with reporting on prints progress lines for
    consecutive depths 1, 2, ..., none deeper than the iteration ceiling,
    and then exactly one best-move line, which carries [getBestMove]; with
    reporting off it prints nothing. *)
Theorem run_output_shape (iters fuel : nat) (s s' : Search) :
  iterDeep iters fuel s = Some s' →
  ∃ (n : nat) new,
    lineDepth <$> new = Some <$> seqZ 1 (Z.of_nat n)
    ∧ Z.of_nat n ≤ Z.max 0 (_searchDepth s)
    ∧ stdout s'
      = stdout s
        ++ (if _logUci s then new ++ [BestMoveLine (getBestMove s')] else []).
Proof.
  intros H. unfold iterDeep in H.
  destruct (iterLoop iters fuel 1 s) as [sf|] eqn:Hloop; simpl in H; [|done].
  apply iterLoop_output in Hloop.
  destruct Hloop as (Hlog & new & n & Hout & Hdepth & Hoff & Hbound).
  exists n, new. split; [done|]. split; [lia|].
  rewrite Hlog in H. destruct (_logUci s).
  - inversion H; subst. simpl. by rewrite Hout, <- app_assoc.
  - inversion H; subst. rewrite Hout.
    specialize (Hoff eq_refl). subst n. by destruct new.
Qed.

(** ** The counts a progress line carries *)

Lemma nodesGrow_poll : PollLaws nodesGrow.
Proof.
  split; unfold nodesGrow.
  - done.
  - intros s1 s2 s3 H12 H23. lia.
  - intros s. by destruct (stopOrCheckLimits_shape s) as (c & n & ->).
  - done.
Qed.

Lemma nodesGrow_laws : NegaMaxLaws (λ _, True) nodesGrow.
Proof.
  split; [apply nodesGrow_poll|..]; unfold nodesGrow.
  - intros s s1 H. simpl in *. done.
  - intros board depth score move s _. unfold recordCutoff.
    by destruct (negb _).
  - done.
Qed.

Lemma nodesGrow_count : CountLaw nodesGrow.
Proof. intros s. unfold nodesGrow. simpl. lia. Qed.

Lemma rootMax_nodes_nonneg fuel board depth s s' :
  rootMax fuel board depth s = Some s' → 0 ≤ _nodes s'.
Proof.
  intros H. unfold rootMax, rootMaxBody in H.
  destruct (getLegalMoves board) as [|m0 ms]; [by inversion H; subst|].
  destruct (rootMaxLoop _ _ _ _ _ _ _ _) as [[[a bm] s1]|] eqn:Hloop;
    simpl in H; [|done].
  apply (rootMaxLoop_respects _ _ _ nodesGrow_laws) in Hloop.
  2: apply (negaMax_respects _ _ nodesGrow_laws nodesGrow_count anyMove_picked).
  unfold nodesGrow in Hloop. simpl in Hloop.
  destruct (negb (_stop s1)); by inversion H; subst.
Qed.

Lemma toInt_range (z : Z) : INT_MIN ≤ toInt z ≤ INT_MAX.
Proof.
  unfold INT_MIN, INT_MAX, toInt.
  pose proof (Z.mod_pos_bound (z + 2147483648) 4294967296). lia.
Qed.

Lemma quot_between (x t : Z) : 1 ≤ t → Z.min x 0 ≤ x ÷ t ≤ Z.max x 0.
Proof.
  intros Ht. destruct (Z.le_gt_cases 0 x) as [Hx|Hx].
  - split; [|apply Z.quot_le_upper_bound; nia].
    pose proof (Z.quot_pos x t Hx). lia.
  - pose proof (Z.quot_opp_l x t ltac:(lia)) as Hopp.
    assert (0 ≤ (- x) ÷ t) by (apply Z.quot_pos; lia).
    assert ((- x) ÷ t ≤ - x) by (apply Z.quot_le_upper_bound; nia).
    lia.
Qed.

Lemma iterBody_sane fuel currDepth s goOn s' :
  (∀ n, 0 ≤ elapsedMs n) →
  Forall lineSane (stdout s) →
  iterBody fuel currDepth s = Some (goOn, s') →
  Forall lineSane (stdout s').
Proof.
  intros Hclock Hs H. unfold iterBody in H.
  destruct (rootMax fuel (_board s) currDepth s) as [s1|] eqn:Hroot;
    simpl in H; [|done].
  pose proof (rootMax_nodes_nonneg _ _ _ _ _ Hroot) as Hn.
  apply rootMax_sameConfig in Hroot.
  destruct Hroot as (_ & _ & _ & _ & _ & Hout). rewrite <- Hout in Hs.
  assert (lineSane (InfoLine currDepth (_nodes s1)
                      (if _bestScore s1 =? INF
                       then Mate (Z.of_nat (length (getPv currDepth s1)))
                       else if _bestScore s1 =? - INF
                            then MateNeg (Z.of_nat (length (getPv currDepth s1)))
                            else Cp (_bestScore s1))
                      (toInt (_nodes s1 * 1000)
                       ÷ (elapsedMs (clockReads s1) + 1))
                      (elapsedMs (clockReads s1) + 1)
                      (getPv currDepth s1))) as Hline.
  { simpl. pose proof (Hclock (clockReads s1)) as He.
    pose proof (toInt_range (_nodes s1 * 1000)) as Hr.
    pose proof (quot_between (toInt (_nodes s1 * 1000))
                  (elapsedMs (clockReads s1) + 1)) as Hq.
    split; [done|]. split; [lia|]. split; [unfold INT_MIN, INT_MAX in *; lia|].
    intros Hfits. rewrite toInt_fits in * by (unfold INT_MIN; lia).
    lia. }
  destruct (_stop s1); [by inversion H; subst|].
  destruct (_logUci s1); destruct (_ <=? _); inversion H; subst; simpl;
    try done; apply Forall_app; split; try done; by apply Forall_singleton.
Qed.

Lemma iterLoop_sane iters fuel :
  (∀ n, 0 ≤ elapsedMs n) →
  ∀ currDepth s s',
    Forall lineSane (stdout s) →
    iterLoop iters fuel currDepth s = Some s' →
    Forall lineSane (stdout s').
Proof.
  intros Hclock.
  induction iters as [|iters IH]; intros currDepth s s' Hs H; simpl in H.
  - destruct (currDepth <=? _searchDepth s); [done|]. by inversion H; subst.
  - destruct (currDepth <=? _searchDepth s); [|by inversion H; subst].
    destruct (iterBody fuel currDepth s) as [[goOn s1]|] eqn:Hbody; [|done].
    apply iterBody_sane in Hbody; [|done|done].
    destruct goOn; [by eapply IH|by inversion H; subst].
Qed.

(** X8. With a clock that never reads below 0, every progress line a run
    prints carries a node count >= 0, a time >= 1 ms (the elapsed time plus
    one, so that the rate is never divided by zero) and a rate within the
    range of [int]; the rate lies between 0 and 1000 times the node count
    as long as that product is within the range of [int], that is up to
    2147483 nodes (beyond, the product wraps around and the rate can be
    negative). *)
Theorem progress_lines_sane (iters fuel : nat) (s s' : Search) :
  (∀ n, 0 ≤ elapsedMs n) →
  Forall lineSane (stdout s) →
  iterDeep iters fuel s = Some s' →
  Forall lineSane (stdout s').
Proof.
  intros Hclock Hs H. unfold iterDeep in H.
  destruct (iterLoop iters fuel 1 s) as [sf|] eqn:Hloop; simpl in H; [|done].
  apply iterLoop_sane in Hloop; [|done|done].
  destruct (_logUci sf); inversion H; subst; [|done].
  simpl. apply Forall_app. split; [done|]. by apply Forall_singleton.
Qed.

(** ** What the move loops store *)

Lemma negaMaxLoop_stores rec board depth beta picks :
  ∀ alpha bestMove s ex,
    negaMaxLoop rec board depth beta picks alpha bestMove s = Some ex →
    match ex with
    | LoopReturn v s' =>
      v = beta
      ∧ ∃ score move,
          beta ≤ score
          ∧ _tt s' !! getZKey board
            = Some (mkEntry score depth LOWER_BOUND move)
    | LoopDone a _ _ => alpha ≤ a
    end.
Proof.
  induction picks as [|m rest IH]; intros alpha bestMove s ex H; simpl in H.
  - inversion H; subst. lia.
  - destruct (rec _ _ _ _ _) as [[r s1]|]; simpl in H; [|done].
    destruct (beta <=? - r) eqn:Hcut.
    + inversion H; subst. split; [done|]. exists (- r), m.
      split; [lia|]. unfold recordCutoff, getEntry.
      destruct (negb _); simpl; by rewrite ttSet_lookup.
    + destruct (alpha <? - r) eqn:Hraise; apply IH in H;
        destruct ex; try done; lia.
Qed.

(** X9. When [_negaMax] returns through its move loop (cancellation check
    passed, cache probe not returning, legal moves, depth not 0), it leaves a
    cache entry for the position with the depth of the call: a LOWER_BOUND
    entry with a score >= the (tightened) beta when it returns that beta on
    a cutoff; an UPPER_BOUND entry holding the returned value when that is
    not above the alpha of the call; an EXACT entry holding the returned
    value when it is above the alpha of the call. *)
Theorem negaMax_stores_its_result (fuel : nat) (board : Board)
    (depth alpha beta a b : Z) (s : Search) (v : Z) (s' : Search) :
  (stopOrCheckLimits s).1 = false →
  ttProbe (getEntry (_tt s) (getZKey board)) depth alpha beta = ProbeWindow a b →
  getLegalMoves board ≠ [] →
  depth ≠ 0 →
  negaMax fuel board depth alpha beta s = Some (v, s') →
  ∃ e, getEntry (_tt s') (getZKey board) = Some e
       ∧ getDepth e = depth
       ∧ match getFlag e with
         | LOWER_BOUND => v = b ∧ b ≤ getScore e
         | UPPER_BOUND => getScore e = v ∧ v ≤ alpha
         | EXACT => getScore e = v ∧ alpha < v
         end.
Proof.
  intros Hrun Hprobe Hlegal Hdepth H. destruct fuel as [|fuel]; [done|].
  simpl in H. rewrite negaMaxBody_running in H by done.
  rewrite Hprobe in H. unfold negaMaxSearch in H.
  destruct (getLegalMoves board) as [|m0 ms]; [done|].
  rewrite (proj2 (Z.eqb_neq _ _) Hdepth) in H.
  destruct (negaMaxLoop _ _ _ _ _ _ _ _) as [ex|] eqn:Hloop; simpl in H; [|done].
  apply negaMaxLoop_stores in Hloop.
  destruct ex as [r s2|a' bm s2]; inversion H; subst.
  - destruct Hloop as (-> & score & move & Hscore & Hentry).
    eexists. split; [exact Hentry|]. by simpl.
  - eexists. unfold getEntry. simpl. rewrite ttSet_lookup.
    split; [done|]. simpl. split; [done|].
    destruct (v <=? alpha) eqn:Hle; simpl; split; try done; lia.
Qed.

(** ** The killer slot *)

(** X10. When a move causes a beta cutoff in the move loop of a [_negaMax]
    node, it is recorded as killer in the slot of the node's own ply (the
    ply before the descent into the child), the ply counter is back at that
    ply, and no other killer slot has changed since the child search
    returned. *)
Theorem killer_at_node_ply (fuel : nat) (board : Board)
    (depth alpha beta : Z) (move : Move) (rest : list Move) (bestMove : Move)
    (s s1 : Search) (r : Z) :
  negaMax fuel (doMove board move) (depth - 1) (- beta) (- alpha)
    (set_orderingInfo (incrementPly (_orderingInfo s)) s) = Some (r, s1) →
  beta ≤ - r →
  ∃ s2,
    negaMaxLoop (negaMax fuel) board depth beta (move :: rest) alpha bestMove s
    = Some (LoopReturn beta s2)
    ∧ getPly (_orderingInfo s2) = getPly (_orderingInfo s)
    ∧ _killers (_orderingInfo s2) !! getPly (_orderingInfo s) = Some move
    ∧ ∀ ply, ply ≠ getPly (_orderingInfo s) →
             _killers (_orderingInfo s2) !! ply
             = _killers (_orderingInfo s1) !! ply.
Proof.
  intros Hchild Hcut.
  pose proof (negaMax_respects _ _ samePly_laws samePly_count anyMove_picked
                fuel _ _ _ _ _ _ _ Hchild) as Hply.
  unfold samePly, getPly in Hply. simpl in Hply.
  eexists. split.
  { simpl. rewrite Hchild. simpl. by rewrite (proj2 (Z.leb_le _ _) Hcut). }
  unfold recordCutoff, getPly. simpl.
  replace (_ply (_orderingInfo s1) - 1) with (_ply (_orderingInfo s)) by lia.
  destruct (negb (hasFlag move CAPTURE)); simpl;
    (split; [lia|]); (split; [by rewrite lookup_insert_eq|]);
    intros ply Hne; by rewrite lookup_insert_ne.
Qed.

(** ** The moves in the cache and in the principal variation *)

Lemma rootMaxLoop_best rec board depth beta picks :
  ∀ alpha bestMove s a bm s',
    rootMaxLoop rec board depth beta picks alpha bestMove s = Some (a, bm, s') →
    bm = bestMove ∨ In bm picks.
Proof.
  induction picks as [|m rest IH]; intros alpha bestMove s a bm s' H; simpl in H.
  - inversion H; subst. by left.
  - destruct (rec _ _ _ _ _) as [[r s1]|]; simpl in H; [|done].
    destruct (stopOrCheckLimits _) as [[] s2].
    { inversion H; subst. by left. }
    destruct (alpha <? - r).
    + destruct (- r =? INF).
      * inversion H; subst. right. by left.
      * apply IH in H. destruct H as [->|H]; right; [by left|by right].
    + apply IH in H. destruct H as [->|H]; [by left|right; by right].
Qed.

Lemma keepsLegal_poll : PollLaws keepsLegal.
Proof.
  split; unfold keepsLegal.
  - done.
  - auto.
  - intros s. by destruct (stopOrCheckLimits_shape s) as (c & n & ->).
  - done.
Qed.

Lemma qSearch_keepsLegal fuel : qRespects keepsLegal (qSearch fuel).
Proof. apply qSearch_respects; [apply keepsLegal_poll|]. intros s H. exact H. Qed.

Section LegalMoves.
Hypothesis null_flag : NULL_MOVE ≠ 0.
Hypothesis picks_legal : ∀ o t b m,
  In m (generalOrder o t b (getLegalMoves b)) → In m (getLegalMoves b).

Lemma nullMove_flagged : hasFlag nullMove NULL_MOVE = true.
Proof.
  unfold hasFlag, nullMove. simpl. rewrite Z.land_diag.
  by rewrite (proj2 (Z.eqb_neq _ _) null_flag).
Qed.

Lemma fallback_legal board first rest bm picks :
  getLegalMoves board = first :: rest →
  (∀ m, In m picks → In m (getLegalMoves board)) →
  bm = nullMove ∨ In bm picks →
  In (if hasFlag bm NULL_MOVE then first else bm) (getLegalMoves board).
Proof.
  intros Hlegal Hpicks Hbm.
  destruct (hasFlag bm NULL_MOVE) eqn:Hnull.
  - rewrite Hlegal. by left.
  - destruct Hbm as [->|Hin]; [|by apply Hpicks].
    rewrite nullMove_flagged in Hnull. done.
Qed.

Lemma negaMaxLoop_legal rec board depth beta picks :
  dRespects keepsLegal rec →
  (∀ m, In m picks → In m (getLegalMoves board)) →
  ∀ alpha bestMove s ex,
    negaMaxLoop rec board depth beta picks alpha bestMove s = Some ex →
    match ex with
    | LoopReturn _ s' => keepsLegal s s'
    | LoopDone _ bm s' => keepsLegal s s' ∧ (bm = bestMove ∨ In bm picks)
    end.
Proof.
  intros Hrec. unfold keepsLegal.
  induction picks as [|m rest IH]; intros Hpicks alpha bestMove s ex H;
    simpl in H.
  - inversion H; subst. split; [done|by left].
  - destruct (rec _ _ _ _ _) as [[r s1]|] eqn:Hr; simpl in H; [|done].
    apply Hrec in Hr. unfold keepsLegal in Hr. simpl in Hr.
    destruct (beta <=? - r).
    + inversion H; subst. intros Hs. unfold recordCutoff.
      assert (legalAt (getZKey board) (mkEntry (- r) depth LOWER_BOUND m))
        as Hentry.
      { exists board. split; [done|]. apply Hpicks. by left. }
      destruct (negb _); simpl; (apply ttSet_Forall; [done|]);
        by apply Hr.
    + assert (∀ m', In m' rest → In m' (getLegalMoves board)) as Hrest
        by (intros m' Hm'; apply Hpicks; by right).
      destruct (alpha <? - r); apply (IH Hrest) in H; destruct ex; simpl in *.
      * auto.
      * destruct H as [Hk Hbm]. split; [auto|].
        destruct Hbm as [->|Hin]; right; [by left|by right].
      * auto.
      * destruct H as [Hk Hbm]. split; [auto|].
        destruct Hbm as [->|Hin]; [by left|right; by right].
Qed.

Lemma negaMaxBody_legal rec qrec :
  dRespects keepsLegal rec → qRespects keepsLegal qrec →
  dRespects keepsLegal (negaMaxBody rec qrec).
Proof.
  intros Hrec Hqrec board depth alpha beta s v s' H. unfold negaMaxBody in H.
  pose proof (ql_poll _ keepsLegal_poll s) as Hp.
  destruct (stopOrCheckLimits s) as [lim s1]; simpl in Hp.
  unfold keepsLegal in *.
  destruct lim; [by inversion H; subst|].
  destruct (ttProbe _ _ _ _) as [r|a b]; [by inversion H; subst|].
  unfold negaMaxSearch in H.
  destruct (getLegalMoves board) as [|m0 ms] eqn:Hlegal;
    [by inversion H; subst|].
  destruct (depth =? 0).
  { apply Hqrec in H. unfold keepsLegal in H. auto. }
  destruct (negaMaxLoop _ _ _ _ _ _ _ _) as [ex|] eqn:Hloop; simpl in H; [|done].
  assert (∀ m, In m (generalOrder (_orderingInfo s1) (_tt s1) board (m0 :: ms)) →
               In m (getLegalMoves board)) as Hpicks.
  { intros m Hm. rewrite <- Hlegal in Hm. by eapply picks_legal. }
  apply (negaMaxLoop_legal _ _ _ _ _ Hrec Hpicks) in Hloop.
  destruct ex as [r s2|a' bm s2]; inversion H; subst.
  - unfold keepsLegal in Hloop. auto.
  - destruct Hloop as [Hk Hbm]. unfold keepsLegal in Hk.
    intros Hs. simpl.
    apply ttSet_Forall; [|by apply Hk, Hp].
    exists board. split; [done|]. simpl.
    exact (fallback_legal board m0 ms bm _ Hlegal Hpicks Hbm).
Qed.

Lemma negaMax_keepsLegal fuel : dRespects keepsLegal (negaMax fuel).
Proof.
  induction fuel as [|fuel IH]; simpl.
  - by intros ? ? ? ? ? ? ? ?.
  - apply negaMaxBody_legal; [done|apply qSearch_keepsLegal].
Qed.

(** The move a completed root search commits is a legal one. *)
Lemma rootMax_best_legal (fuel : nat) (board : Board) (depth : Z)
    (s s' : Search) :
  getLegalMoves board ≠ [] →
  rootMax fuel board depth s = Some s' →
  _stop s' = false →
  In (getBestMove s') (getLegalMoves board).
Proof.
  intros Hlegal H Hstop. unfold rootMax, rootMaxBody in H.
  remember (getLegalMoves board) as legalMoves eqn:Hl in H.
  destruct legalMoves as [|m0 ms]; [congruence|]. symmetry in Hl.
  destruct (rootMaxLoop _ _ _ _ _ _ _ _) as [[[a bm] s1]|] eqn:Hloop;
    simpl in H; [|done].
  apply rootMaxLoop_best in Hloop.
  destruct (_stop s1) eqn:Hs1; simpl in H; inversion H; subst.
  { simpl in Hstop. congruence. }
  unfold getBestMove. cbn [_bestMove set_best].
  eapply fallback_legal; [done| |exact Hloop].
  intros m Hm. rewrite <- Hl in Hm. by eapply picks_legal.
Qed.

(** X11. A root search over a position with legal moves that is not
    stopped commits a legal move of that position as best move, and stores
    for the position an EXACT cache entry with the depth of the search, the
    committed score and the committed move. *)
Theorem rootMax_commits_legal_move (fuel : nat) (board : Board) (depth : Z)
    (s s' : Search) :
  getLegalMoves board ≠ [] →
  rootMax fuel board depth s = Some s' →
  _stop s' = false →
  In (getBestMove s') (getLegalMoves board)
  ∧ getEntry (_tt s') (getZKey board)
    = Some (mkEntry (getBestScore s') depth EXACT (getBestMove s')).
Proof.
  intros Hlegal H Hstop. split; [by eapply rootMax_best_legal|].
  unfold rootMax, rootMaxBody in H.
  destruct (getLegalMoves board) as [|m0 ms]; [done|].
  destruct (rootMaxLoop _ _ _ _ _ _ _ _) as [[[a bm] s1]|];
    simpl in H; [|done].
  destruct (_stop s1) eqn:Hs1; simpl in H; inversion H; subst.
  { simpl in Hstop. congruence. }
  unfold getBestMove, getBestScore, getEntry. simpl.
  by rewrite ttSet_lookup.
Qed.

Lemma rootMax_keepsLegal fuel board depth s s' :
  rootMax fuel board depth s = Some s' → keepsLegal s s'.
Proof.
  intros H Hs. destruct (getLegalMoves board) as [|m0 ms] eqn:Hl.
  { unfold rootMax, rootMaxBody in H. rewrite Hl in H. by inversion H; subst. }
  destruct (_stop s') eqn:Hstop.
  - unfold rootMax, rootMaxBody in H. rewrite Hl in H.
    destruct (rootMaxLoop _ _ _ _ _ _ _ _) as [[[a bm] s1]|] eqn:Hloop;
      simpl in H; [|done].
    apply (rootMaxLoop_cache cacheLegal) in Hloop;
      [|by intros; eapply negaMax_keepsLegal|done].
    destruct (_stop s1) eqn:Hs1; simpl in H; inversion H; subst; [done|].
    simpl in Hstop. congruence.
  - pose proof H as Hcommit.
    apply rootMax_best_legal in Hcommit; [|by rewrite Hl|done].
    rename Hcommit into Hin.
    unfold rootMax, rootMaxBody in H. rewrite Hl in H.
    destruct (rootMaxLoop _ _ _ _ _ _ _ _) as [[[a bm] s1]|] eqn:Hloop;
      simpl in H; [|done].
    apply (rootMaxLoop_cache cacheLegal) in Hloop;
      [|by intros; eapply negaMax_keepsLegal|done].
    destruct (_stop s1) eqn:Hs1; simpl in H; inversion H; subst; [done|].
    simpl. apply ttSet_Forall; [|done].
    exists board. split; [done|]. simpl. exact Hin.
Qed.

Lemma iterBody_keepsLegal fuel currDepth s goOn s' :
  iterBody fuel currDepth s = Some (goOn, s') → keepsLegal s s'.
Proof.
  intros H Hs. unfold iterBody in H.
  destruct (rootMax fuel (_board s) currDepth s) as [s1|] eqn:Hroot;
    simpl in H; [|done].
  apply rootMax_keepsLegal in Hroot. specialize (Hroot Hs).
  destruct (_stop s1); [by inversion H; subst|].
  destruct (_logUci s1); destruct (_ <=? _); by inversion H; subst.
Qed.

Lemma iterLoop_keepsLegal iters fuel :
  ∀ currDepth s s',
    iterLoop iters fuel currDepth s = Some s' → keepsLegal s s'.
Proof.
  unfold keepsLegal.
  induction iters as [|iters IH]; intros currDepth s s' H; simpl in H.
  - destruct (currDepth <=? _searchDepth s); [done|]. by inversion H; subst.
  - destruct (currDepth <=? _searchDepth s); [|by inversion H; subst].
    destruct (iterBody fuel currDepth s) as [[goOn s1]|] eqn:Hbody; [|done].
    apply iterBody_keepsLegal in Hbody. unfold keepsLegal in Hbody.
    destruct goOn; [|by inversion H; subst].
    intros Hs. apply (IH _ _ _ H). by apply Hbody.
Qed.

(** X12. With a null-move flag that is not 0 and a picker that hands out
    legal moves only: if every move in the cache is a legal move of some
    position with the entry's key, this is still so after any call of
    [_negaMax] or [_rootMax] and after a run of [iterDeep]; in particular
    after any run that starts from a new search, whose cache is empty. *)
Theorem cache_moves_are_legal (iters fuel : nat) (board : Board)
    (depth alpha beta : Z) (s : Search) :
  cacheLegal (_tt s) →
  (∀ v s', negaMax fuel board depth alpha beta s = Some (v, s') →
           cacheLegal (_tt s'))
  ∧ (∀ s', rootMax fuel board depth s = Some s' → cacheLegal (_tt s'))
  ∧ (∀ s', iterDeep iters fuel s = Some s' → cacheLegal (_tt s')).
Proof.
  intros Hs. split; [|split].
  - intros v s' H. apply negaMax_keepsLegal in H. by apply H.
  - intros s' H. apply rootMax_keepsLegal in H. by apply H.
  - intros s' H. unfold iterDeep in H.
    destruct (iterLoop iters fuel 1 s) as [sf|] eqn:Hloop; simpl in H; [|done].
    apply iterLoop_keepsLegal in Hloop. specialize (Hloop Hs).
    destruct (_logUci sf); by inversion H; subst.
Qed.

(** *** The principal variation *)

Section ExactKeys.
Hypothesis key_inj : ∀ b b' : Board, getZKey b = getZKey b' → b = b'.

Lemma getPvFrom_legal n :
  ∀ tt board, cacheLegal tt → legalLine board (getPvFrom n tt board).
Proof.
  induction n as [|n IH]; intros tt board Htt; simpl; [done|].
  unfold getEntry. destruct (tt !! getZKey board) as [e|] eqn:He; [|done].
  simpl. split; [|by apply IH].
  destruct (Htt _ _ He) as (b & Hkey & Hin).
  by rewrite <- (key_inj _ _ Hkey).
Qed.

Lemma iterBody_linesLegal fuel currDepth s goOn s' :
  cacheLegal (_tt s) → linesLegal s →
  iterBody fuel currDepth s = Some (goOn, s') →
  cacheLegal (_tt s') ∧ linesLegal s'.
Proof.
  intros Hs Hlines H.
  pose proof (iterBody_keepsLegal _ _ _ _ _ H Hs) as Hs'. split; [done|].
  unfold iterBody in H.
  destruct (rootMax fuel (_board s) currDepth s) as [s1|] eqn:Hroot;
    simpl in H; [|done].
  pose proof (rootMax_keepsLegal _ _ _ _ _ Hroot Hs) as Hs1.
  apply rootMax_sameConfig in Hroot.
  destruct Hroot as (_ & Hboard & _ & _ & _ & Hout).
  unfold linesLegal in *. rewrite <- Hout, <- Hboard in Hlines.
  destruct (_stop s1); [by inversion H; subst|].
  destruct (_logUci s1); destruct (_ <=? _); inversion H; subst; simpl;
    try done; apply Forall_app; split; try done;
    apply Forall_singleton; simpl; by apply getPvFrom_legal.
Qed.

Lemma iterLoop_linesLegal iters fuel :
  ∀ currDepth s s',
    cacheLegal (_tt s) → linesLegal s →
    iterLoop iters fuel currDepth s = Some s' →
    cacheLegal (_tt s') ∧ linesLegal s'.
Proof.
  induction iters as [|iters IH]; intros currDepth s s' Hs Hlines H;
    simpl in H.
  - destruct (currDepth <=? _searchDepth s); [done|]. by inversion H; subst.
  - destruct (currDepth <=? _searchDepth s); [|by inversion H; subst].
    destruct (iterBody fuel currDepth s) as [[goOn s1]|] eqn:Hbody; [|done].
    apply iterBody_linesLegal in Hbody; [|done|done].
    destruct Hbody as [Hs1 Hl1].
    destruct goOn; [by eapply IH|by inversion H; subst].
Qed.

(** X13. With position keys that do not collide, a null-move flag that is
    not 0 and a picker that hands out legal moves only: when every cached
    move is legal for its key and every line printed so far is a legal line
    from the root, every principal variation a run of [iterDeep] prints, and
    every one [_getPv] extracts afterwards, is a legal line from the root
    position: each move is legal in the position the moves before it lead
    to. *)
Theorem printed_lines_are_legal (iters fuel : nat) (s s' : Search) :
  cacheLegal (_tt s) →
  Forall (λ l, legalLine (_board s) (linePv l)) (stdout s) →
  iterDeep iters fuel s = Some s' →
  Forall (λ l, legalLine (_board s') (linePv l)) (stdout s')
  ∧ ∀ length, legalLine (_board s') (getPv length s').
Proof.
  intros Hs Hlines H. unfold iterDeep in H.
  destruct (iterLoop iters fuel 1 s) as [sf|] eqn:Hloop; simpl in H; [|done].
  apply iterLoop_linesLegal in Hloop; [|done|done].
  destruct Hloop as [Hsf Hlf]. unfold linesLegal in Hlf.
  destruct (_logUci sf); inversion H; subst; simpl.
  - split; [|intros n; by apply getPvFrom_legal].
    apply Forall_app. split; [done|]. by apply Forall_singleton.
  - split; [done|]. intros n. by apply getPvFrom_legal.
Qed.

End ExactKeys.

End LegalMoves.

(** ** The shape of the principal variation *)

Lemma getPvFrom_length n :
  ∀ tt board, (length (getPvFrom n tt board) ≤ n)%nat.
Proof.
  induction n as [|n IH]; intros tt board; simpl; [done|].
  destruct (getEntry _ _); simpl; [|lia]. specialize (IH tt (doMove board (ttBestMove t))). lia.
Qed.

Lemma getPvFrom_prefix n :
  ∀ m tt board, (n ≤ m)%nat →
                getPvFrom n tt board `prefix_of` getPvFrom m tt board.
Proof.
  induction n as [|n IH]; intros m tt board Hle; simpl.
  - apply prefix_nil.
  - destruct m as [|m]; [lia|]. simpl.
    destruct (getEntry _ _); [|done].
    apply prefix_cons, IH. lia.
Qed.

(** X14. The principal variation [_getPv] extracts for a target length has
    at most that many moves (none for a target of 0 or less), is empty when
    the cache has no entry for the root, and is a prefix of the one for any
    larger target; after a root search over a position with legal moves
    that was not stopped, its first move is the committed best move. *)
Theorem getPv_shape (length1 length2 : Z) (s : Search) :
  (length (getPv length1 s) ≤ Z.to_nat length1)%nat
  ∧ (getEntry (_tt s) (getZKey (_board s)) = None → getPv length1 s = [])
  ∧ (length1 ≤ length2 → getPv length1 s `prefix_of` getPv length2 s)
  ∧ (∀ fuel depth s0,
       rootMax fuel (_board s0) depth s0 = Some s →
       _stop s = false → getLegalMoves (_board s0) ≠ [] → 1 ≤ length1 →
       head (getPv length1 s) = Some (getBestMove s)).
Proof.
  unfold getPv. split; [apply getPvFrom_length|]. split; [|split].
  - intros Hnone. destruct (Z.to_nat length1); simpl; [done|].
    by rewrite Hnone.
  - intros Hle. apply getPvFrom_prefix. lia.
  - intros fuel depth s0 Hroot Hstop Hlegal Hlen.
    pose proof (rootMax_sameConfig _ _ _ _ _ Hroot) as (_ & Hboard & _).
    unfold rootMax, rootMaxBody in Hroot.
    destruct (getLegalMoves (_board s0)) as [|m0 ms]; [done|].
    destruct (rootMaxLoop _ _ _ _ _ _ _ _) as [[[a bm] s1]|];
      simpl in Hroot; [|done].
    destruct (_stop s1) eqn:Hs1; simpl in Hroot; inversion Hroot; subst.
    { simpl in Hstop. congruence. }
    destruct (Z.to_nat length1) as [|n] eqn:Hn; [lia|].
    simpl in *. unfold getEntry. by rewrite Hboard, ttSet_lookup.
Qed.

(** ** Quiescence: the stand-pat score and the node count *)

Lemma qSearchLoop_floor rec board beta picks :
  ∀ alpha s v s',
    qSearchLoop rec board beta picks alpha s = Some (v, s') →
    Z.min alpha beta ≤ v.
Proof.
  induction picks as [|m rest IH]; intros alpha s v s' H; simpl in H.
  - inversion H; subst. lia.
  - destruct (rec _ _ _ s) as [[r s1]|]; simpl in H; [|done].
    destruct (beta <=? - r).
    + inversion H; subst. lia.
    + destruct (alpha <? - r) eqn:Hraise; apply IH in H; lia.
Qed.

(** X15. The stand-pat score is a floor: a [_qSearch] call that passes its
    cancellation check at a position with legal moves returns at least the
    smaller of the static evaluation and beta, whatever the window and
    whatever the searches of the captures return (also when one of them is
    cancelled); it returns the evaluation itself when there is no capture,
    and beta when the evaluation reaches beta and there is a capture. *)
Theorem stand_pat_is_a_floor (fuel : nat) (board : Board) (alpha beta : Z)
    (s : Search) (v : Z) (s' : Search) :
  (stopOrCheckLimits s).1 = false →
  getLegalMoves board ≠ [] →
  qSearch fuel board alpha beta s = Some (v, s') →
  let standPat := evalScore board (getActivePlayer board) in
  Z.min standPat beta ≤ v
  ∧ (captureOrder (getLegalMoves board) = [] → v = standPat)
  ∧ (captureOrder (getLegalMoves board) ≠ [] → beta ≤ standPat → v = beta).
Proof.
  intros Hpass Hlegal H standPat. subst standPat.
  destruct fuel as [|fuel]; [done|]. simpl in H. unfold qSearchBody in H.
  destruct (stopOrCheckLimits s) as [lim s1]. simpl in Hpass. subst lim.
  destruct (getLegalMoves board) as [|m0 ms]; [done|].
  destruct (captureOrder (m0 :: ms)) as [|c cs].
  { inversion H; subst. split; [lia|]. by split. }
  destruct (beta <=? _) eqn:Hpat.
  { inversion H; subst. apply Z.leb_le in Hpat. split; [lia|]. by split. }
  apply Z.leb_gt in Hpat. apply qSearchLoop_floor in H.
  split; [|split; [done|lia]].
  destruct (alpha <? _) eqn:Hraise; [lia|]. apply Z.ltb_ge in Hraise. lia.
Qed.

Lemma qSearchLoop_nodesGrow fuel board beta picks alpha s v s' :
  qSearchLoop (qSearch fuel) board beta picks alpha s = Some (v, s') →
  _nodes s ≤ _nodes s'.
Proof.
  apply (qSearchLoop_respects nodesGrow _ nodesGrow_poll).
  apply qSearch_respects; [apply nodesGrow_poll|apply nodesGrow_count].
Qed.

(** X16. The node counter never goes down inside an iteration: no call of
    [_negaMax] or [_qSearch] returns with a smaller count than it was
    called with, a [_qSearch] call that passes its cancellation check at a
    position with legal moves counts at least one node, and a call of
    either that is cancelled on entry counts none. *)
Theorem node_counter_never_decreases (fuel : nat) (board : Board)
    (depth alpha beta : Z) (s : Search) :
  (∀ v s', negaMax fuel board depth alpha beta s = Some (v, s') →
           _nodes s ≤ _nodes s')
  ∧ (∀ v s', qSearch fuel board alpha beta s = Some (v, s') →
             _nodes s ≤ _nodes s'
             ∧ ((stopOrCheckLimits s).1 = false → getLegalMoves board ≠ [] →
                _nodes s + 1 ≤ _nodes s'))
  ∧ ((stopOrCheckLimits s).1 = true →
     ∀ v s', negaMax fuel board depth alpha beta s = Some (v, s')
             ∨ qSearch fuel board alpha beta s = Some (v, s') →
             v = 0 ∧ _nodes s' = _nodes s).
Proof.
  split; [|split].
  - intros v s' H.
    by apply (negaMax_respects _ _ nodesGrow_laws nodesGrow_count
                anyMove_picked) in H.
  - intros v s' H. split.
    { by apply (qSearch_respects _ nodesGrow_poll nodesGrow_count) in H. }
    intros Hpass Hlegal.
    destruct fuel as [|fuel]; [done|]. simpl in H. unfold qSearchBody in H.
    destruct (stopOrCheckLimits_shape s) as (c & n & Hs).
    destruct (stopOrCheckLimits s) as [lim s1]. simpl in *. subst lim s1.
    destruct (getLegalMoves board) as [|m0 ms]; [done|].
    destruct (captureOrder (m0 :: ms)) as [|c0 cs].
    { inversion H; subst. simpl. lia. }
    destruct (beta <=? _).
    { inversion H; subst. simpl. lia. }
    apply qSearchLoop_nodesGrow in H. simpl in H. lia.
  - intros Htrip v s' H.
    destruct (stopOrCheckLimits_shape s) as (c & n & Hs).
    destruct fuel as [|fuel]; [by destruct H|]. simpl in H.
    unfold negaMaxBody, qSearchBody in H.
    destruct (stopOrCheckLimits s) as [lim s1]. simpl in *. subst lim s1.
    destruct H as [H|H]; by inversion H; subst.
Qed.

(** ** The soft time limit *)

Lemma iterBody_half_budget fuel currDepth s goOn s' :
  _logUci s = true →
  iterBody fuel currDepth s = Some (goOn, s') →
  _logUci s' = true ∧ _timeAllocated s' = _timeAllocated s
  ∧ ∃ new, stdout s' = stdout s ++ new
           ∧ (length new ≤ 1)%nat
           ∧ (goOn = true →
              ∃ l t, new = [l] ∧ lineTime l = Some t
                     ∧ t ≤ _timeAllocated s ÷ 2).
Proof.
  intros Hlog H. unfold iterBody in H.
  destruct (rootMax fuel (_board s) currDepth s) as [s1|] eqn:Hroot;
    simpl in H; [|done].
  apply rootMax_sameConfig in Hroot.
  destruct Hroot as (_ & _ & Hlog1 & _ & Htime & Hout).
  rewrite Hlog1, Hlog in H.
  destruct (_stop s1).
  { inversion H; subst. simpl. repeat split; try congruence.
    exists []. rewrite app_nil_r. split; [done|]. split; [simpl; lia|done]. }
  unfold logUciInfo in H. simpl in H.
  destruct (_ <=? _) eqn:Hhalf; inversion H; subst; simpl;
    (split; [congruence|]); (split; [done|]); rewrite Hout;
    eexists [_]; (split; [done|]); (split; [simpl; lia|]); [done|].
  intros _. apply Z.leb_gt in Hhalf. rewrite Htime in Hhalf.
  eexists _, _. split; [done|]. split; [done|]. lia.
Qed.

Lemma iterLoop_half_budget iters fuel :
  ∀ currDepth s s',
    _logUci s = true →
    iterLoop iters fuel currDepth s = Some s' →
    ∃ new, stdout s' = stdout s ++ new
           ∧ ∀ (i : nat) l,
               new !! i = Some l → (S i < length new)%nat →
               ∃ t, lineTime l = Some t ∧ t ≤ _timeAllocated s ÷ 2.
Proof.
  induction iters as [|iters IH]; intros currDepth s s' Hlog H; simpl in H.
  - destruct (currDepth <=? _searchDepth s); [done|]. inversion H; subst.
    exists []. rewrite app_nil_r. split; [done|]. intros i l Hl. done.
  - destruct (currDepth <=? _searchDepth s).
    2: { inversion H; subst. exists []. rewrite app_nil_r. split; [done|].
         intros i l Hl. done. }
    destruct (iterBody fuel currDepth s) as [[goOn s1]|] eqn:Hbody; [|done].
    apply iterBody_half_budget in Hbody; [|done].
    destruct Hbody as (Hlog1 & Htime & new1 & Hout1 & Hlen1 & Hgo).
    destruct goOn.
    + destruct (Hgo eq_refl) as (l1 & t1 & -> & Ht1 & Hle1).
      apply IH in H; [|done]. destruct H as (new2 & Hout2 & Hearly).
      exists (l1 :: new2). rewrite Hout2, Hout1, <- app_assoc.
      split; [done|]. intros [|i] l Hl Hi; simpl in *.
      * inversion Hl; subst. by exists t1.
      * rewrite <- Htime. apply (Hearly i l Hl). lia.
    + inversion H; subst. exists new1. split; [done|].
      intros i l Hl Hi. lia.
Qed.

(** X17. No iteration is started once half of the time budget is used:
    in a run with reporting on, every progress line but the last one shows
    a time (the elapsed milliseconds plus one) of at most half the budget,
    rounded towards zero. *)
Theorem no_iteration_after_half_budget (iters fuel : nat) (s s' : Search) :
  _logUci s = true →
  iterDeep iters fuel s = Some s' →
  ∃ new,
    stdout s' = stdout s ++ new ++ [BestMoveLine (getBestMove s')]
    ∧ ∀ (i : nat) l,
        new !! i = Some l → (S i < length new)%nat →
        ∃ t, lineTime l = Some t ∧ t ≤ _timeAllocated s ÷ 2.
Proof.
  intros Hlog H. unfold iterDeep in H.
  destruct (iterLoop iters fuel 1 s) as [sf|] eqn:Hloop; simpl in H; [|done].
  pose proof (iterLoop_output _ _ _ _ _ Hloop) as [Hlogf _].
  apply iterLoop_half_budget in Hloop; [|done].
  destruct Hloop as (new & Hout & Hearly).
  rewrite Hlogf, Hlog in H. inversion H; subst. simpl.
  exists new. split; [|done]. by rewrite Hout, <- app_assoc.
Qed.

End Further.

(** * The properties at concrete inputs *)

#[local] Existing Instance Toy.still.

Lemma toy_capture_shrinks (b : Board) (m : Move) :
  In m (captureOrder (getLegalMoves b)) →
  (Toy.material (doMove b m) < Toy.material b)%nat.
Proof.
  destruct b as [sd [|st] [|q]]; vm_compute; intros H;
    repeat (destruct H as [<-|H]; [vm_compute; lia|]); by destruct H.
Qed.

Lemma toy_move_keeps (o : OrderingInfo) (t : TranspTable) (b : Board)
    (m : Move) :
  In m (generalOrder o t b (getLegalMoves b)) →
  (Toy.material (doMove b m) ≤ Toy.material b)%nat.
Proof.
  destruct b as [sd [|st] [|q]]; vm_compute; intros H;
    repeat (destruct H as [<-|H]; [vm_compute; lia|]); by destruct H.
Qed.

Lemma toy_legal_not_null (b : Board) (m : Move) :
  In m (getLegalMoves b) → notNull m.
Proof.
  destruct b as [sd [|st] [|q]]; vm_compute; intros H;
    repeat (destruct H as [<-|H]; [done|]); by destruct H.
Qed.

Lemma toy_picks_legal (o : OrderingInfo) (t : TranspTable) (b : Board)
    (m : Move) :
  In m (generalOrder o t b (getLegalMoves b)) → In m (getLegalMoves b).
Proof. done. Qed.

Lemma toy_flips (b : Board) (m : Move) :
  getActivePlayer (doMove b m) = getOppositeColor (getActivePlayer b).
Proof. simpl. unfold Toy.play. by destruct (_ =? _). Qed.

(** Outside the range of [int] the sum of time and increment and the node
    count times 1000 wrap around. *)
Lemma time_budget_wraps_around :
  _timeAllocated (newSearch Toy.start Toy.hugeClock false) = -14748364.
Proof. reflexivity. Qed.

Lemma rate_wraps_around :
  stdout (logUciInfo [] 1 nullMove 0 3000000 0 Toy.fresh)
  = [InfoLine 1 3000000 (Cp 0) (-1294967296) 1 []].
Proof. reflexivity. Qed.

Lemma negaMax_cache_probe_witness :
  (stopOrCheckLimits Toy.cached).1 = false
  ∧ getEntry (_tt Toy.cached) (getZKey Toy.start)
    = Some (mkEntry 7 2 EXACT Toy.quietMove)
  ∧ negaMax 3 Toy.start 1 (-5) 5 Toy.cached
    = Some (7, (stopOrCheckLimits Toy.cached).2).
Proof.
  split; [reflexivity|]. split; [reflexivity|].
  refine (proj1 (negaMax_cache_probe (E := Toy.still) 2 Toy.start 1 (-5) 5 Toy.cached
                   (mkEntry 7 2 EXACT Toy.quietMove) eq_refl eq_refl) _ _).
  - simpl. lia.
  - reflexivity.
Defined.

Lemma failhard_containment_witness :
  -100 ≤ 100
  ∧ (stopOrCheckLimits Toy.fresh).1 = false
  ∧ getLegalMoves Toy.start ≠ []
  ∧ (∃ v s', qSearch 5 Toy.start (-100) 100 Toy.fresh = Some (v, s')
             ∧ -100 ≤ v ≤ 100)
  ∧ (∃ v s', negaMax 5 Toy.start 1 (-100) 100 Toy.fresh = Some (v, s')
             ∧ -100 ≤ v ≤ 100).
Proof.
  assert (-100 ≤ 100) as Hab by lia.
  assert (getLegalMoves Toy.start ≠ []) as Hlegal by (vm_compute; discriminate).
  destruct (failhard_containment (E := Toy.still) Toy.material
              toy_capture_shrinks toy_move_keeps
              5 Toy.start 1 (-100) 100 Toy.fresh Hab eq_refl Hlegal)
    as [Hq Hn].
  repeat split; try done.
  - destruct Hq as [Hsafe Hlive]; [vm_compute; discriminate|].
    destruct Hlive as (v & s' & Hrun); [vm_compute; lia|].
    exists v, s'. split; [done|]. by eapply Hsafe.
  - destruct Hn as [Hsafe Hlive]; [lia|intros r; vm_compute; discriminate|].
    destruct Hlive as (v & s' & Hrun); [lia|vm_compute; lia|].
    exists v, s'. split; [done|]. by eapply Hsafe.
Defined.

Lemma terminal_score_witness :
  getLegalMoves Toy.mated = []
  ∧ (stopOrCheckLimits Toy.fresh).1 = false
  ∧ qSearch 1 Toy.mated (-10) 10 Toy.fresh
    = Some (- INF, (stopOrCheckLimits Toy.fresh).2)
  ∧ negaMax 1 Toy.mated 3 (-10) 10 Toy.fresh
    = Some (- INF, (stopOrCheckLimits Toy.fresh).2).
Proof.
  destruct (terminal_score (E := Toy.still) 0 Toy.mated 3 (-10) 10 Toy.fresh eq_refl eq_refl)
    as [Hq Hn].
  split; [reflexivity|]. split; [reflexivity|]. split.
  - exact Hq.
  - exact (Hn (-10) 10 eq_refl).
Defined.

Lemma timed_search_budget_witness :
  l_infinite Toy.timed = false
  ∧ l_depth Toy.timed = 0
  ∧ l_time Toy.timed (getActivePlayer Toy.start) ≠ 0
  ∧ - INT_MAX ≤ l_time Toy.timed (getActivePlayer Toy.start)
                + l_increment Toy.timed (getActivePlayer Toy.start) ≤ INT_MAX
  ∧ _searchDepth (newSearch Toy.start Toy.timed false) = 64
  ∧ _timeAllocated (newSearch Toy.start Toy.timed false) = (1000 + 500) ÷ 10.
Proof.
  assert (l_time Toy.timed (getActivePlayer Toy.start) ≠ 0) as Htime
    by (vm_compute; discriminate).
  assert (- INT_MAX ≤ l_time Toy.timed (getActivePlayer Toy.start)
                      + l_increment Toy.timed (getActivePlayer Toy.start)
          ≤ INT_MAX) as Hfits by (vm_compute; split; discriminate).
  destruct (timed_search_budget (E := Toy.still) Toy.start Toy.timed false
              eq_refl eq_refl Htime Hfits)
    as (Hdepth & _ & Htogo).
  split; [reflexivity|]. split; [reflexivity|]. split; [exact Htime|].
  split; [exact Hfits|]. split; [exact Hdepth|].
  apply Htogo. vm_compute. discriminate.
Defined.

Lemma ply_balanced_witness :
  (Z.to_nat 2 + Toy.material Toy.start + 1 < 6)%nat
  ∧ ∃ v s', negaMax 6 Toy.start 2 (-100) 100 Toy.fresh = Some (v, s')
            ∧ getPly (_orderingInfo s') = getPly (_orderingInfo Toy.fresh).
Proof.
  assert (Z.to_nat 2 + Toy.material Toy.start + 1 < 6)%nat as Hfuel
    by (vm_compute; lia).
  split; [done|].
  destruct (ply_balanced (E := Toy.still) Toy.material toy_capture_shrinks toy_move_keeps
              6 Toy.start 2 (-100) 100 Toy.fresh)
    as [(Hsafe & _ & _) Hlive].
  destruct (Hlive Hfuel) as (Hrun & _ & _).
  destruct Hrun as [[v s'] Hrun]; [lia|].
  exists v, s'. split; [done|]. by eapply Hsafe.
Defined.

Lemma null_move_not_persisted_witness :
  cacheHoldsMoves (_tt Toy.fresh)
  ∧ getLegalMoves (_board Toy.fresh) ≠ []
  ∧ 1 ≤ _searchDepth Toy.fresh
  ∧ ∃ s', iterDeep 4 20 Toy.fresh = Some s'
          ∧ cacheHoldsMoves (_tt s') ∧ notNull (getBestMove s').
Proof.
  assert (cacheHoldsMoves (_tt Toy.fresh)) as Hcache by apply map_Forall_empty.
  assert (getLegalMoves (_board Toy.fresh) ≠ []) as Hlegal
    by (vm_compute; discriminate).
  assert (1 ≤ _searchDepth Toy.fresh) as Hdepth by (vm_compute; discriminate).
  split; [done|]. split; [done|]. split; [done|].
  destruct (null_move_not_persisted (E := Toy.still)
              toy_legal_not_null toy_picks_legal
              4 20 Toy.start 1 0 0 Toy.fresh Hcache) as (_ & _ & Hrun).
  destruct (iterDeep 4 20 Toy.fresh) as [s'|] eqn:Hdeep;
    [|vm_compute in Hdeep; discriminate].
  exists s'. split; [done|].
  destruct (Hrun s' eq_refl) as [Hc Hb]. split; [done|].
  apply Hb; [done|done|].
  destruct (rootMax 20 (_board Toy.fresh) 1 Toy.fresh) as [s1|] eqn:Hroot;
    [|vm_compute in Hroot; discriminate].
  exists s1. split; [done|].
  assert (_stop <$> rootMax 20 (_board Toy.fresh) 1 Toy.fresh = Some false)
    as Hstop by (vm_compute; reflexivity).
  rewrite Hroot in Hstop. by inversion Hstop.
Defined.


Lemma node_cap_overshoot_witness :
  0 < l_nodes (_limits Toy.capped)
  ∧ ∃ s', iterDeep 5 20 Toy.capped = Some s'
          ∧ _nodes s' ≤ 1 + 4096.
Proof.
  assert (0 < l_nodes (_limits Toy.capped))
    as Hcap by (vm_compute; reflexivity).
  split; [done|].
  destruct (node_cap_overshoot (E := Toy.still) 5 20 Toy.start 1 0 0
              Toy.capped Hcap)
    as (Hnew & Hkept & _ & _).
  destruct (Hkept (Hnew true)) as (_ & _ & _ & Hrun).
  destruct (iterDeep 5 20 Toy.capped)
    as [s'|] eqn:Hdeep; [|vm_compute in Hdeep; discriminate].
  exists s'. split; [done|]. by apply (Hrun s').
Defined.

Lemma history_keyed_on_root_side_witness :
  negaMax 5 (doMove Toy.lastMove Toy.quietMove) (1 - 1) (- 100) (- -100)
    (set_orderingInfo (incrementPly (_orderingInfo Toy.freshQuiet))
       Toy.freshQuiet)
  = Some (- INF, Toy.afterChild)
  ∧ 100 ≤ - - INF
  ∧ hasFlag Toy.quietMove CAPTURE = false
  ∧ ∃ s2,
      negaMaxLoop (negaMax 5) Toy.lastMove 1 100 [Toy.quietMove] (-100)
        nullMove Toy.freshQuiet
      = Some (LoopReturn 100 s2)
      ∧ getHistory (_orderingInfo s2) WHITE 3 4 = 1
      ∧ getHistory (_orderingInfo s2) BLACK 3 4 = 0
      ∧ getActivePlayer Toy.lastMove = BLACK.
Proof.
  assert (negaMax 5 (doMove Toy.lastMove Toy.quietMove) (1 - 1) (- 100)
            (- -100)
            (set_orderingInfo (incrementPly (_orderingInfo Toy.freshQuiet))
               Toy.freshQuiet)
          = Some (- INF, Toy.afterChild)) as Hchild by (vm_compute; reflexivity).
  assert (100 ≤ - - INF) as Hcut by (vm_compute; discriminate).
  split; [done|]. split; [done|]. split; [reflexivity|].
  destruct (history_keyed_on_root_side (E := Toy.still) 5 Toy.lastMove 1
              (-100) 100 Toy.quietMove [] nullMove Toy.freshQuiet
              Toy.afterChild (- INF) Hchild Hcut eq_refl)
    as (s2 & Hloop & Hroot & Hother & Hodd).
  exists s2. split; [done|]. split; [|split].
  - etransitivity; [exact Hroot|]. vm_compute. reflexivity.
  - etransitivity; [exact (Hother 3 4)|]. vm_compute. reflexivity.
  - apply (Hodd toy_flips [Toy.quietMove]); [|reflexivity].
    exists 0%nat. reflexivity.
Defined.

Lemma nodes_counted_in_quiescence_only_witness :
  (Z.to_nat 3 + Toy.material Toy.larger < 20)%nat
  ∧ (∃ s', rootMax 20 Toy.larger 3 (set_nodes 7 Toy.fresh) = Some s'
           ∧ _nodes s' = Z.of_nat (evals s' - evals Toy.fresh)
           ∧ _nodes s' = 6)
  ∧ ∃ v s', negaMax 20 Toy.larger 3 (-100) 100 (set_nodes 7 Toy.fresh)
            = Some (v, s')
            ∧ _nodes s' = 7 + Z.of_nat (evals s' - evals Toy.fresh)
            ∧ 7 < _nodes s'.
Proof.
  assert (Z.to_nat 3 + Toy.material Toy.larger < 20)%nat as Hfuel
    by (vm_compute; lia).
  destruct (nodes_counted_in_quiescence_only (E := Toy.still) Toy.material
              toy_capture_shrinks toy_move_keeps
              20 Toy.larger 3 (-100) 100 (set_nodes 7 Toy.fresh))
    as (Hnega & _ & _ & Hroot & _).
  split; [done|]. split.
  - destruct Hroot as (s' & Hrun & _ & Hcount); [lia|done|].
    exists s'. split; [done|]. split; [done|].
    assert (_nodes <$> @rootMax Toy.still 20 Toy.larger 3
                         (set_nodes 7 Toy.fresh) = Some 6) as Hsix
      by (vm_compute; reflexivity).
    rewrite Hrun in Hsix. by inversion Hsix.
  - destruct (@negaMax Toy.still 20 Toy.larger 3 (-100) 100
                (set_nodes 7 Toy.fresh)) as [[v s']|] eqn:Hrun;
      [|vm_compute in Hrun; discriminate].
    exists v, s'. split; [done|].
    destruct (Hnega v s' eq_refl) as [_ Hcount]. split; [done|].
    assert (Z.ltb 7 <$> (_nodes <$> (snd <$> @negaMax Toy.still 20 Toy.larger
                                       3 (-100) 100 (set_nodes 7 Toy.fresh)))
            = Some true) as Hmore by (vm_compute; reflexivity).
    rewrite Hrun in Hmore. simpl in Hmore. inversion Hmore as [Hlt].
    by apply Z.ltb_lt.
Defined.

(** ** Where the claims as stated fail *)

(** C2 as stated fails: [_qSearch] at a quiet position returns the stand-pat
    score 3 for the window (10, 20), and [_negaMax] returns the cached EXACT
    score 7 for the window (-5, 5). *)
Lemma containment_counterexample :
  getLegalMoves Toy.quietOnly ≠ []
  ∧ fst <$> qSearch 2 Toy.quietOnly 10 20 Toy.freshQuiet = Some 3
  ∧ ¬ (10 ≤ 3 ≤ 20)
  ∧ fst <$> negaMax 3 Toy.start 1 (-5) 5 Toy.cached = Some 7
  ∧ ¬ (-5 ≤ 7 ≤ 5).
Proof.
  split; [vm_compute; discriminate|].
  split; [vm_compute; reflexivity|]. split; [lia|].
  split; [vm_compute; reflexivity|lia].
Qed.

(** C3 as stated fails: at a position without legal moves whose side to
    move is in check, a call at which the time limit is found exceeded
    returns 0, not -INF. *)
Lemma terminal_score_counterexample :
  getLegalMoves Toy.mated = []
  ∧ colorIsInCheck Toy.mated (getActivePlayer Toy.mated) = true
  ∧ fst <$> negaMax 3 Toy.mated 2 (-10) 10 Toy.blitz = Some 0
  ∧ fst <$> qSearch 3 Toy.mated (-10) 10 Toy.blitz = Some 0
  ∧ 0 ≠ - INF.
Proof. repeat split; vm_compute; (reflexivity || discriminate). Qed.

(** C4 as stated fails: after a run from a position without legal moves,
    [getBestMove] is the null move, and it is the move printed. *)
Lemma null_move_counterexample :
  getLegalMoves Toy.mated = []
  ∧ getBestMove <$> iterDeep 3 5 Toy.freshMated = Some nullMove
  ∧ hasFlag nullMove NULL_MOVE = true
  ∧ (λ s, last (stdout s)) <$> iterDeep 3 5 Toy.freshMated
    = Some (Some (BestMoveLine nullMove)).
Proof. repeat split; vm_compute; reflexivity. Qed.

(** C6 as stated fails: with 1000 ms left, an increment of 500 ms and 10
    moves to go, the budget is 150 ms, not 1000 / 10 = 100 ms. *)
Lemma time_budget_counterexample :
  l_time Toy.timed (getActivePlayer Toy.start) = 1000
  ∧ l_movesToGo Toy.timed = 10
  ∧ _timeAllocated (newSearch Toy.start Toy.timed false) = 150
  ∧ 1000 ÷ 10 ≠ 150.
Proof. repeat split; vm_compute; (reflexivity || discriminate). Qed.

(** C8 as stated fails.  With a node cap of 1, the depth-1 iteration from
    [start] counts 2 nodes and is committed, and so is the depth-2
    iteration after it; the stop flag stays clear.  In the longer run the counter
    reaches the cap in the first iteration; the second poll of the limits,
    4096 limit checks after the first, does not set the stop flag (the
    counter was reset by the iteration then running), and all 22 iterations
    are committed. *)
Lemma node_cap_counterexample :
  l_nodes (_limits Toy.capped) = 1
  ∧ Toy.observe <$> iterDeep 5 20 Toy.capped
    = Some ([(1, 2); (2, 0)], false, 3%nat, 4085)
  ∧ l_nodes (_limits Toy.longRun) = 1
  ∧ Toy.observe <$> iterDeep 22 40 Toy.longRun
    = Some ([(1, 3); (2, 6); (3, 6); (4, 9); (5, 9); (6, 12); (7, 12);
             (8, 14); (9, 14); (10, 14); (11, 14); (12, 14); (13, 13);
             (14, 13); (15, 10); (16, 6); (17, 0); (18, 0); (19, 0);
             (20, 0); (21, 0); (22, 0)], false, 24%nat, 4089).
Proof. repeat split; vm_compute; reflexivity. Qed.

(** * The further properties at concrete inputs *)

Lemma toy_null_flag : @NULL_MOVE Toy.still ≠ 0.
Proof. vm_compute. discriminate. Qed.

Lemma toy_exact_key_inj (b b' : @Board Toy.exact) :
  @getZKey Toy.exact b = @getZKey Toy.exact b' → b = b'.
Proof.
  destruct b as [sd st q], b' as [sd' st' q']. simpl. unfold Toy.exactKey.
  simpl. intros H. injection H as H. apply (inj encode) in H.
  injection H as -> -> Hside. by destruct sd, sd'.
Qed.

Lemma poll_every_4096_checks_witness :
  _limitCheckCount Toy.fresh ≤ 1
  ∧ _limitCheckCount (checkLimits Toy.fresh).2 = 4096
  ∧ (checkLimits (checksInARow 100 (checkLimits Toy.fresh).2)).1 = false
  ∧ clockReads (checkLimits (checksInARow 4095 (checkLimits Toy.fresh).2)).2
    = 2%nat.
Proof.
  assert (_limitCheckCount Toy.fresh ≤ 1) as Hcount
    by (vm_compute; discriminate).
  destruct (poll_every_4096_checks (E := Toy.still) Toy.fresh Hcount)
    as (Hfull & _ & _ & Hquiet & Hagain & _).
  split; [done|]. split; [exact Hfull|]. split; [apply Hquiet; lia|].
  exact Hagain.
Defined.

Lemma stop_is_final_witness :
  _stop (stop Toy.fresh) = true
  ∧ negaMax 3 Toy.start 2 (-100) 100 (stop Toy.fresh)
    = Some (0, stop Toy.fresh)
  ∧ qSearch 3 Toy.start (-100) 100 (stop Toy.fresh) = Some (0, stop Toy.fresh)
  ∧ ∃ s', iterDeep 4 20 (stop Toy.fresh) = Some s' ∧ _stop s' = true.
Proof.
  destruct (stop_is_final (E := Toy.still) 4 2 Toy.start 2 (-100) 100
              (stop Toy.fresh) eq_refl)
    as (_ & _ & _ & Hrun & Hnega & Hq).
  split; [reflexivity|]. split; [exact Hnega|]. split; [exact Hq|].
  pose proof (stop_is_final (E := Toy.still) 4 20 Toy.start 2 (-100) 100
                (stop Toy.fresh) eq_refl) as (_ & _ & _ & Hrun' & _).
  destruct (iterDeep 4 20 (stop Toy.fresh)) as [s'|] eqn:Hdeep;
    [|vm_compute in Hdeep; discriminate].
  exists s'. split; [done|]. by apply Hrun'.
Defined.

Lemma search_calls_commit_nothing_witness :
  ∃ v s', negaMax 6 Toy.start 2 (-100) 100 Toy.fresh = Some (v, s')
          ∧ _bestMove s' = _bestMove Toy.fresh
          ∧ _bestScore s' = _bestScore Toy.fresh
          ∧ stdout s' = stdout Toy.fresh.
Proof.
  destruct (search_calls_commit_nothing (E := Toy.still) 6 Toy.start 2
              (-100) 100 Toy.fresh) as (Hnega & _ & _).
  destruct (@negaMax Toy.still 6 Toy.start 2 (-100) 100 Toy.fresh) as [[v s']|] eqn:Hrun;
    [|vm_compute in Hrun; discriminate].
  exists v, s'. split; [done|].
  destruct (Hnega v s' eq_refl) as (Hm & Hs & Ho & _). done.
Defined.

Lemma cancelled_run_reports_null_move_witness :
  getLegalMoves Toy.start ≠ []
  ∧ generalOrder (mkOrdering 0 ∅ ∅) ∅ Toy.start (getLegalMoves Toy.start) ≠ []
  ∧ 1 ≤ _searchDepth (newSearch Toy.start Toy.noLimits true)
  ∧ ∃ s', iterDeep 4 20 (stop (newSearch Toy.start Toy.noLimits true))
          = Some s'
          ∧ _stop s' = true
          ∧ getBestMove s' = nullMove
          ∧ stdout s' = [BestMoveLine nullMove].
Proof.
  assert (getLegalMoves Toy.start ≠ []) as Hlegal
    by (vm_compute; discriminate).
  assert (generalOrder (mkOrdering 0 ∅ ∅) ∅ Toy.start
            (getLegalMoves Toy.start) ≠ []) as Hpick
    by (vm_compute; discriminate).
  assert (1 ≤ _searchDepth (newSearch Toy.start Toy.noLimits true)) as Hdepth
    by (vm_compute; discriminate).
  split; [done|]. split; [done|]. split; [done|].
  destruct (cancelled_run_reports_null_move (E := Toy.still) 3 19 Toy.start
              Toy.noLimits true true Hlegal Hpick Hdepth (or_introl eq_refl))
    as (s' & Hrun & Hstop & Hmove & _ & _ & Hout).
  exists s'. by repeat split.
Defined.

Lemma negative_depth_searches_nothing_witness :
  l_infinite Toy.negativeDepth = false
  ∧ l_depth Toy.negativeDepth < 0
  ∧ iterDeep 4 20 (newSearch Toy.start Toy.negativeDepth true)
    = Some (set_stdout [BestMoveLine nullMove]
              (newSearch Toy.start Toy.negativeDepth true)).
Proof.
  assert (l_depth Toy.negativeDepth < 0) as Hneg by (vm_compute; reflexivity).
  split; [reflexivity|]. split; [done|].
  exact (negative_depth_searches_nothing (E := Toy.still) 4 20 Toy.start
           Toy.negativeDepth true eq_refl Hneg).
Defined.

Lemma run_output_shape_witness :
  ∃ s', iterDeep 4 20 Toy.talking = Some s'
        ∧ ∃ (n : nat) new,
            lineDepth <$> new = Some <$> seqZ 1 (Z.of_nat n)
            ∧ Z.of_nat n ≤ 3
            ∧ stdout s' = new ++ [BestMoveLine (getBestMove s')].
Proof.
  destruct (iterDeep 4 20 Toy.talking) as [s'|] eqn:Hdeep;
    [|vm_compute in Hdeep; discriminate].
  exists s'. split; [done|].
  destruct (run_output_shape (E := Toy.still) 4 20 Toy.talking s' Hdeep)
    as (n & new & Hdepths & Hn & Hout).
  exists n, new. split; [done|]. split; [exact Hn|]. exact Hout.
Defined.

Lemma progress_lines_sane_witness :
  (∀ n, 0 ≤ elapsedMs n)
  ∧ Forall lineSane (stdout Toy.talking)
  ∧ ∃ s', iterDeep 4 20 Toy.talking = Some s' ∧ Forall lineSane (stdout s').
Proof.
  assert (∀ n, 0 ≤ elapsedMs n) as Hclock by (intros n; simpl; lia).
  assert (Forall lineSane (stdout Toy.talking)) as Hout by apply Forall_nil_2.
  split; [done|]. split; [done|].
  destruct (iterDeep 4 20 Toy.talking) as [s'|] eqn:Hdeep;
    [|vm_compute in Hdeep; discriminate].
  exists s'. split; [done|].
  exact (progress_lines_sane (E := Toy.still) 4 20 Toy.talking s'
           Hclock Hout Hdeep).
Defined.

Lemma negaMax_stores_its_result_witness :
  (stopOrCheckLimits Toy.fresh).1 = false
  ∧ ttProbe (getEntry (_tt Toy.fresh) (getZKey Toy.start)) 2 (-100) 100
    = ProbeWindow (-100) 100
  ∧ getLegalMoves Toy.start ≠ []
  ∧ ∃ v s' e, negaMax 6 Toy.start 2 (-100) 100 Toy.fresh = Some (v, s')
              ∧ getEntry (_tt s') (getZKey Toy.start) = Some e
              ∧ getDepth e = 2.
Proof.
  assert (getLegalMoves Toy.start ≠ []) as Hlegal
    by (vm_compute; discriminate).
  split; [reflexivity|]. split; [reflexivity|]. split; [done|].
  destruct (@negaMax Toy.still 6 Toy.start 2 (-100) 100 Toy.fresh) as [[v s']|] eqn:Hrun;
    [|vm_compute in Hrun; discriminate].
  destruct (negaMax_stores_its_result (E := Toy.still) 6 Toy.start 2
              (-100) 100 (-100) 100 Toy.fresh v s' eq_refl eq_refl Hlegal)
    as (e & Hentry & Hdepth & _); [lia|done|].
  by exists v, s', e.
Defined.

Lemma killer_at_node_ply_witness :
  ∃ r s1,
    negaMax 5 (doMove Toy.start Toy.captureMove) (1 - 1) (- -10) (- -100)
      (set_orderingInfo (incrementPly (_orderingInfo Toy.fresh)) Toy.fresh)
    = Some (r, s1)
    ∧ -10 ≤ - r
    ∧ ∃ s2,
        negaMaxLoop (negaMax 5) Toy.start 1 (-10)
          [Toy.captureMove; Toy.quietMove] (-100) nullMove Toy.fresh
        = Some (LoopReturn (-10) s2)
        ∧ _killers (_orderingInfo s2) !! getPly (_orderingInfo Toy.fresh)
          = Some Toy.captureMove.
Proof.
  destruct (@negaMax Toy.still 5 (@doMove Toy.still Toy.start Toy.captureMove) (1 - 1)
              (- -10) (- -100)
              (set_orderingInfo (incrementPly (_orderingInfo Toy.fresh))
                 Toy.fresh)) as [[r s1]|] eqn:Hchild;
    [|vm_compute in Hchild; discriminate].
  assert (r = 4) as Hr.
  { assert (fst <$> @negaMax Toy.still 5 (@doMove Toy.still Toy.start Toy.captureMove)
              (1 - 1) (- -10) (- -100)
              (set_orderingInfo (incrementPly (_orderingInfo Toy.fresh))
                 Toy.fresh) = Some 4) as Hv by (vm_compute; reflexivity).
    rewrite Hchild in Hv. by inversion Hv. }
  assert (-10 ≤ - r) as Hcut by lia.
  exists r, s1. split; [done|]. split; [done|].
  destruct (killer_at_node_ply (E := Toy.still) 5 Toy.start 1 (-100) (-10)
              Toy.captureMove [Toy.quietMove] nullMove Toy.fresh s1 r
              Hchild Hcut) as (s2 & Hloop & _ & Hkiller & _).
  exists s2. by split.
Defined.

Lemma rootMax_commits_legal_move_witness :
  getLegalMoves Toy.start ≠ []
  ∧ ∃ s', rootMax 20 Toy.start 1 Toy.fresh = Some s'
          ∧ _stop s' = false
          ∧ In (getBestMove s') (getLegalMoves Toy.start)
          ∧ getEntry (_tt s') (getZKey Toy.start)
            = Some (mkEntry (getBestScore s') 1 EXACT (getBestMove s')).
Proof.
  assert (getLegalMoves Toy.start ≠ []) as Hlegal
    by (vm_compute; discriminate).
  split; [done|].
  destruct (@rootMax Toy.still 20 Toy.start 1 Toy.fresh) as [s'|] eqn:Hroot;
    [|vm_compute in Hroot; discriminate].
  assert (_stop <$> @rootMax Toy.still 20 Toy.start 1 Toy.fresh = Some false)
    as Hstop by (vm_compute; reflexivity).
  rewrite Hroot in Hstop. inversion Hstop as [Hstop'].
  destruct (rootMax_commits_legal_move (E := Toy.still) toy_null_flag
              toy_picks_legal 20 Toy.start 1 Toy.fresh s' Hlegal Hroot Hstop')
    as [Hin Hentry].
  exists s'. by repeat split.
Defined.

Lemma cache_moves_are_legal_witness :
  cacheLegal (_tt Toy.fresh)
  ∧ ∃ s', iterDeep 4 20 Toy.fresh = Some s' ∧ cacheLegal (_tt s').
Proof.
  assert (cacheLegal (_tt Toy.fresh)) as Hcache by apply map_Forall_empty.
  split; [done|].
  destruct (cache_moves_are_legal (E := Toy.still) toy_null_flag
              toy_picks_legal 4 20 Toy.start 1 0 0 Toy.fresh Hcache)
    as (_ & _ & Hrun).
  destruct (iterDeep 4 20 Toy.fresh) as [s'|] eqn:Hdeep;
    [|vm_compute in Hdeep; discriminate].
  exists s'. split; [done|]. by apply Hrun.
Defined.

Lemma printed_lines_are_legal_witness :
  @cacheLegal Toy.exact (@_tt Toy.exact Toy.reported)
  ∧ Forall (λ l, @legalLine Toy.exact (@_board Toy.exact Toy.reported)
                   (linePv l))
      (@stdout Toy.exact Toy.reported)
  ∧ ∃ s', @iterDeep Toy.exact 4 20 Toy.reported = Some s'
          ∧ Forall (λ l, @legalLine Toy.exact (@_board Toy.exact s')
                           (linePv l))
              (@stdout Toy.exact s')
          ∧ @legalLine Toy.exact (@_board Toy.exact s')
              (@getPv Toy.exact 3 s').
Proof.
  assert (@cacheLegal Toy.exact (@_tt Toy.exact Toy.reported)) as Hcache
    by apply map_Forall_empty.
  assert (Forall (λ l, @legalLine Toy.exact (@_board Toy.exact Toy.reported)
                         (linePv l))
            (@stdout Toy.exact Toy.reported)) as Hout by apply Forall_nil_2.
  assert (@NULL_MOVE Toy.exact ≠ 0) as Hflag by (vm_compute; discriminate).
  split; [done|]. split; [done|].
  destruct (@iterDeep Toy.exact 4 20 Toy.reported) as [s'|] eqn:Hdeep;
    [|vm_compute in Hdeep; discriminate].
  exists s'. split; [done|].
  destruct (printed_lines_are_legal (E := Toy.exact) Hflag
              (λ _ _ _ _ H, H) toy_exact_key_inj 4 20 Toy.reported s'
              Hcache Hout Hdeep) as [Hlines Hpv].
  split; [done|]. apply Hpv.
Defined.

Lemma getPv_shape_witness :
  getLegalMoves (_board Toy.fresh) ≠ []
  ∧ ∃ s', rootMax 20 (_board Toy.fresh) 1 Toy.fresh = Some s'
          ∧ _stop s' = false
          ∧ (length (getPv 2 s') ≤ 2)%nat
          ∧ getPv 2 s' `prefix_of` getPv 5 s'
          ∧ head (getPv 2 s') = Some (getBestMove s').
Proof.
  assert (getLegalMoves (_board Toy.fresh) ≠ []) as Hlegal
    by (vm_compute; discriminate).
  split; [done|].
  destruct (rootMax 20 (_board Toy.fresh) 1 Toy.fresh) as [s'|] eqn:Hroot;
    [|vm_compute in Hroot; discriminate].
  assert (_stop <$> rootMax 20 (_board Toy.fresh) 1 Toy.fresh = Some false)
    as Hstop by (vm_compute; reflexivity).
  rewrite Hroot in Hstop. inversion Hstop as [Hstop'].
  destruct (getPv_shape (E := Toy.still) 2 5 s')
    as (Hlen & _ & Hprefix & Hhead).
  exists s'. split; [done|]. split; [done|]. split; [exact Hlen|].
  split; [apply Hprefix; lia|].
  apply (Hhead 20%nat 1 Toy.fresh Hroot Hstop' Hlegal). lia.
Defined.

Lemma stand_pat_is_a_floor_witness :
  (stopOrCheckLimits Toy.fresh).1 = false
  ∧ getLegalMoves Toy.start ≠ []
  ∧ ∃ v s', qSearch 5 Toy.start (-100) 100 Toy.fresh = Some (v, s')
            ∧ Z.min (evalScore Toy.start (getActivePlayer Toy.start)) 100 ≤ v.
Proof.
  assert (getLegalMoves Toy.start ≠ []) as Hlegal
    by (vm_compute; discriminate).
  split; [reflexivity|]. split; [done|].
  destruct (@qSearch Toy.still 5 Toy.start (-100) 100 Toy.fresh)
    as [[v s']|] eqn:Hrun; [|vm_compute in Hrun; discriminate].
  exists v, s'. split; [done|].
  by destruct (stand_pat_is_a_floor (E := Toy.still) 5 Toy.start (-100) 100
                 Toy.fresh v s' eq_refl Hlegal Hrun) as [Hfloor _].
Defined.

Lemma node_counter_never_decreases_witness :
  (stopOrCheckLimits Toy.fresh).1 = false
  ∧ getLegalMoves Toy.start ≠ []
  ∧ ∃ v s', qSearch 5 Toy.start (-100) 100 Toy.fresh = Some (v, s')
            ∧ _nodes Toy.fresh + 1 ≤ _nodes s'.
Proof.
  assert (getLegalMoves Toy.start ≠ []) as Hlegal
    by (vm_compute; discriminate).
  split; [reflexivity|]. split; [done|].
  destruct (@qSearch Toy.still 5 Toy.start (-100) 100 Toy.fresh)
    as [[v s']|] eqn:Hrun; [|vm_compute in Hrun; discriminate].
  exists v, s'. split; [done|].
  destruct (node_counter_never_decreases (E := Toy.still) 5 Toy.start 0
              (-100) 100 Toy.fresh) as (_ & Hq & _).
  destruct (Hq v s' Hrun) as [_ Hcount]. by apply Hcount.
Defined.

Lemma no_iteration_after_half_budget_witness :
  _logUci Toy.talking = true
  ∧ ∃ s' new,
      iterDeep 4 20 Toy.talking = Some s'
      ∧ stdout s' = new ++ [BestMoveLine (getBestMove s')]
      ∧ ∀ (i : nat) l,
          new !! i = Some l → (S i < length new)%nat →
          ∃ t, lineTime l = Some t ∧ t ≤ _timeAllocated Toy.talking ÷ 2.
Proof.
  split; [reflexivity|].
  destruct (iterDeep 4 20 Toy.talking) as [s'|] eqn:Hdeep;
    [|vm_compute in Hdeep; discriminate].
  destruct (no_iteration_after_half_budget (E := Toy.still) 4 20 Toy.talking
              s' eq_refl Hdeep) as (new & Hout & Hearly).
  exists s', new. split; [done|]. split; [exact Hout|exact Hearly].
Defined.
